(** * Audio fingerprinting: hasher, index store, matcher and peak picker

    A shallow embedding of the Python package [shazam]:
    - [fingerprint.py]  anchor/target hashing of a constellation of peaks,
    - [database.py]     the SQLite store of songs and fingerprint rows,
    - [matcher.py]      the alignment vote over probe hits,
    - [peaks.py]        the local-maximum peak picker.

    Python integers are unbounded, so they are modelled by [Z]; Python
    [str] values by [string]; lists by [list]; [None] by [option]. *)

From Stdlib Require Import ZArith QArith List String Ascii Bool Lia.
From Stdlib Require Import DecimalString Permutation Sorted.
From Stdlib Require DecimalPos DecimalZ.
Import ListNotations.

Open Scope Z_scope.

(* ================================================================== *)
(** * Part I: the program *)
(* ================================================================== *)

(** ** [hashlib.sha1]

    The hasher calls [hashlib.sha1(data).hexdigest()].  The function below
    is SHA-1 as in FIPS 180-4, on bytes given as numbers in [0, 255], with
    32-bit words held in [Z] and every wrap-around written out. *)
Module Sha1.

Definition w32 (x : Z) : Z := x mod 2 ^ 32.

Definition add32 (x y : Z) : Z := w32 (x + y).

Definition rotl (n x : Z) : Z :=
  w32 (Z.lor (Z.shiftl x n) (Z.shiftr x (32 - n))).

Definition not32 (x : Z) : Z := Z.lxor x (2 ^ 32 - 1).

(** Big-endian bytes of a number, [n] bytes wide. *)
Fixpoint be_bytes (n : nat) (x : Z) : list Z :=
  match n with
  | O => []
  | S n' => Z.land (Z.shiftr x (8 * Z.of_nat n')) 255 :: be_bytes n' x
  end.

(** Message padding: the bit 1, zeros up to 56 modulo 64, then the bit
    length on 8 bytes. *)
Definition pad (msg : list Z) : list Z :=
  let len := Z.of_nat (List.length msg) in
  let zeros := Z.to_nat ((55 - len) mod 64) in
  msg ++ 128 :: repeat 0 zeros ++ be_bytes 8 (8 * len).

Fixpoint words_of_bytes (fuel : nat) (bs : list Z) : list Z :=
  match fuel, bs with
  | S fuel', b0 :: b1 :: b2 :: b3 :: rest =>
      (((b0 * 256 + b1) * 256 + b2) * 256 + b3) :: words_of_bytes fuel' rest
  | _, _ => []
  end.

(** Message schedule: the 16 words of the block extended to 80. *)
Fixpoint extend (n : nat) (w : list Z) : list Z :=
  match n with
  | O => w
  | S n' =>
      let i := List.length w in
      let x := Z.lxor (Z.lxor (nth (i - 3) w 0) (nth (i - 8) w 0))
                      (Z.lxor (nth (i - 14) w 0) (nth (i - 16) w 0)) in
      extend n' (w ++ [rotl 1 x])
  end.

Definition state : Type := Z * Z * Z * Z * Z.

Definition f_k (t : nat) (b c d : Z) : Z * Z :=
  if (t <? 20)%nat then
    (Z.lor (Z.land b c) (Z.land (not32 b) d), 0x5A827999)
  else if (t <? 40)%nat then
    (Z.lxor (Z.lxor b c) d, 0x6ED9EBA1)
  else if (t <? 60)%nat then
    (Z.lor (Z.lor (Z.land b c) (Z.land b d)) (Z.land c d), 0x8F1BBCDC)
  else
    (Z.lxor (Z.lxor b c) d, 0xCA62C1D6).

Fixpoint rounds (t : nat) (ws : list Z) (s : state) : state :=
  match ws with
  | [] => s
  | w :: ws' =>
      let '(a, b, c, d, e) := s in
      let '(f, k) := f_k t b c d in
      let tmp := add32 (add32 (add32 (add32 (rotl 5 a) f) e) k) w in
      rounds (S t) ws' (tmp, a, rotl 30 b, c, d)
  end.

Definition compress (s : state) (block : list Z) : state :=
  let ws := extend 64 (words_of_bytes 16 block) in
  let '(a, b, c, d, e) := rounds 0 ws s in
  let '(h0, h1, h2, h3, h4) := s in
  (add32 h0 a, add32 h1 b, add32 h2 c, add32 h3 d, add32 h4 e).

Fixpoint blocks (fuel : nat) (bs : list Z) (s : state) : state :=
  match fuel with
  | O => s
  | S fuel' =>
      match bs with
      | [] => s
      | _ => blocks fuel' (skipn 64 bs) (compress s (firstn 64 bs))
      end
  end.

Definition init : state :=
  (0x67452301, 0xEFCDAB89, 0x98BADCFE, 0x10325476, 0xC3D2E1F0).

Definition digest (msg : list Z) : state :=
  let p := pad msg in
  blocks (List.length p) p init.

Definition hex_digit (x : Z) : ascii :=
  match x with
  | 0 => "0" | 1 => "1" | 2 => "2" | 3 => "3" | 4 => "4"
  | 5 => "5" | 6 => "6" | 7 => "7" | 8 => "8" | 9 => "9"
  | 10 => "a" | 11 => "b" | 12 => "c" | 13 => "d" | 14 => "e"
  | _ => "f"
  end%char.

Definition nibble (w : Z) (i : Z) : ascii :=
  hex_digit (Z.land (Z.shiftr w (4 * i)) 15).

Definition hex8 (w : Z) (tail : string) : string :=
  String (nibble w 7) (String (nibble w 6) (String (nibble w 5)
  (String (nibble w 4) (String (nibble w 3) (String (nibble w 2)
  (String (nibble w 1) (String (nibble w 0) tail))))))).

(** [hashlib.sha1(msg).hexdigest()]: 40 lower-case hexadecimal digits. *)
Definition hexdigest (msg : list Z) : string :=
  let '(h0, h1, h2, h3, h4) := digest msg in
  hex8 h0 (hex8 h1 (hex8 h2 (hex8 h3 (hex8 h4 EmptyString)))).

(** [str.encode()]: the strings hashed here hold ASCII characters only,
    whose UTF-8 encoding is one byte each, the character code. *)
Definition encode (s : string) : list Z :=
  map (fun c => Z.of_N (N_of_ascii c)) (list_ascii_of_string s).

End Sha1.

(** ** [fingerprint.py] *)
Module Fingerprint.

Definition TARGET_ZONE_START : Z := 1.
Definition TARGET_ZONE_END : Z := 200.
Definition FAN_OUT : Z := 15.

(** A peak is [(time_idx, freq_idx)]. *)
Definition peak : Type := Z * Z.

(** A target kept for an anchor: [(t2, f2, delta_t)]. *)
Definition target : Type := Z * Z * Z.

(** An output tuple [(hash_string, anchor_time, song_id)]; [song_id]
    defaults to [None]. *)
Definition hash_tuple : Type := string * Z * option Z.

(** [sorted(peaks, key=lambda x: x[0])].  Python's [sorted] is stable:
    the result is ordered by the key alone and peaks of equal key keep
    the order they had in the input.  A stable sort has exactly one result
    (see [sorted_by_time_unique]); it is computed here by insertion, each
    peak going before the first peak of the sorted tail whose key is not
    smaller. *)
Fixpoint insert_by_time (p : peak) (l : list peak) : list peak :=
  match l with
  | [] => [p]
  | q :: l' =>
      if fst p <=? fst q then p :: q :: l' else q :: insert_by_time p l'
  end.

Definition sorted_by_time (peaks : list peak) : list peak :=
  fold_right insert_by_time [] peaks.

(** [str(n)] for an integer: decimal digits, with a leading minus sign
    for a negative number. *)
Definition str (n : Z) : string := NilZero.string_of_int (Z.to_int n).

(** The f-string [f"{f1}|{f2}|{delta_t}"]. *)
Definition hash_input (f1 f2 delta_t : Z) : string :=
  (str f1 ++ "|" ++ str f2 ++ "|" ++ str delta_t)%string.

(** [hashlib.sha1(hash_input.encode()).hexdigest()[:20]]. *)
Definition hash_value (f1 f2 delta_t : Z) : string :=
  substring 0 20 (Sha1.hexdigest (Sha1.encode (hash_input f1 f2 delta_t))).

(** The inner loop [for j in range(i + 1, len(peaks))], run over the
    peaks after the anchor, with the list [targets] built so far:
    [continue] below the zone, [break] above it, and [break] once
    [FAN_OUT] targets are kept. *)
Fixpoint scan_targets (t1 : Z) (rest : list peak) (targets : list target)
  : list target :=
  match rest with
  | [] => targets
  | (t2, f2) :: rest' =>
      let delta_t := t2 - t1 in
      if delta_t <? TARGET_ZONE_START then scan_targets t1 rest' targets
      else if delta_t >? TARGET_ZONE_END then targets
      else
        let targets' := targets ++ [(t2, f2, delta_t)] in
        if Z.of_nat (List.length targets') >=? FAN_OUT then targets'
        else scan_targets t1 rest' targets'
  end.

(** The second inner loop: one tuple per kept target. *)
Definition emit (song_id : option Z) (t1 f1 : Z) (targets : list target)
  : list hash_tuple :=
  map (fun '(t2, f2, delta_t) => (hash_value f1 f2 delta_t, t1, song_id))
      targets.

(** The outer loop [for i, (t1, f1) in enumerate(peaks)]: the peaks from
    index [i] on, and the list [hashes] built so far. *)
Fixpoint anchor_loop (song_id : option Z) (peaks : list peak)
  (hashes : list hash_tuple) : list hash_tuple :=
  match peaks with
  | [] => hashes
  | (t1, f1) :: rest =>
      let targets := scan_targets t1 rest [] in
      anchor_loop song_id rest (hashes ++ emit song_id t1 f1 targets)
  end.

Definition generate_hashes (peaks : list peak) (song_id : option Z)
  : list hash_tuple :=
  anchor_loop song_id (sorted_by_time peaks) [].

(** The anchor-target pairs of a run, in the order the tuples are
    emitted: for each anchor the targets its scan keeps. *)
Fixpoint anchor_target_pairs (peaks : list peak) : list (peak * peak) :=
  match peaks with
  | [] => []
  | (t1, f1) :: rest =>
      map (fun '(t2, f2, _) => ((t1, f1), (t2, f2))) (scan_targets t1 rest [])
      ++ anchor_target_pairs rest
  end.

(** The tuple emitted for an anchor-target pair. *)
Definition tuple_of_pair (song_id : option Z) (a : peak * peak)
  : hash_tuple :=
  let '((t1, f1), (t2, f2)) := a in
  (hash_value f1 f2 (t2 - t1), t1, song_id).

(** A kept target comes from a peak after the anchor, inside the zone. *)
Definition in_zone (t1 : Z) (rest : list peak) (x : target) : Prop :=
  let '(t2, f2, delta_t) := x in
  In (t2, f2) rest /\ delta_t = t2 - t1 /\
  TARGET_ZONE_START <= delta_t <= TARGET_ZONE_END.

(** Orders on peaks: by time alone; by frequency alone; and the order
    the spec asks for, ascending time with equal times by ascending
    frequency. *)
Definition by_time (p q : peak) : Prop := fst p <= fst q.

Definition by_freq (p q : peak) : Prop := snd p <= snd q.

Definition time_then_freq (p q : peak) : Prop :=
  fst p < fst q \/ (fst p = fst q /\ snd p <= snd q).

(** The peaks of a list at one time, in the order of the list. *)
Definition at_time (t : Z) (p : peak) : bool := fst p =? t.

(** The peaks of equal time come in ascending frequency. *)
Definition ties_by_freq (peaks : list peak) : Prop :=
  forall t, StronglySorted by_freq (filter (at_time t) peaks).

(** A peak list, and an output tuple, moved by [c] frames in time. *)
Definition shift_peak (c : Z) (p : peak) : peak := (fst p + c, snd p).

Definition shift_tuple (c : Z) (x : hash_tuple) : hash_tuple :=
  let '(h, t, s) := x in (h, t + c, s).

Definition shift_target (c : Z) (x : target) : target :=
  let '(t2, f2, d) := x in (t2 + c, f2, d).

Definition shift_pair (c : Z) (a : peak * peak) : peak * peak :=
  (shift_peak c (fst a), shift_peak c (snd a)).

(** The anchor time of an output tuple. *)
Definition anchor_time (x : hash_tuple) : Z := snd (fst x).

(** The peak [q] lies in the target zone of an anchor at time [t1]. *)
Definition in_target_zone (t1 : Z) (q : peak) : bool :=
  (TARGET_ZONE_START <=? fst q - t1) && (fst q - t1 <=? TARGET_ZONE_END).

(** The text before the first ["|"] of a string, and the text after it. *)
Fixpoint split_bar (s : string) : string * string :=
  match s with
  | EmptyString => (EmptyString, EmptyString)
  | String c s' =>
      if Ascii.eqb c "|" then (EmptyString, s')
      else let '(a, b) := split_bar s' in (String c a, b)
  end.

Fixpoint has_bar (s : string) : bool :=
  match s with
  | EmptyString => false
  | String c s' => Ascii.eqb c "|" || has_bar s'
  end.


End Fingerprint.

(** ** [database.py]

    The SQLite file is modelled by its two tables.  A table is the list of
    its rows in insertion (rowid) order; rows may repeat. *)
Module Database.

(** A row of [songs]: [(id, name)]. *)
Definition song_row : Type := Z * string.

(** A row of [fingerprints]: [(hash, song_id, time_offset)]. *)
Definition fingerprint_row : Type := string * Z * Z.

(** [seq] is the entry of [songs] in [sqlite_sequence], kept by SQLite for
    an [AUTOINCREMENT] key: the largest id ever handed out. *)
Record FingerprintDatabase : Type := {
  songs : list song_row;
  fingerprints : list fingerprint_row;
  seq : Z
}.

(** [_init_db] on a new file. *)
Definition init_db : FingerprintDatabase :=
  {| songs := []; fingerprints := []; seq := 0 |}.

(** The largest id in use or ever used. *)
Definition last_id (db : FingerprintDatabase) : Z :=
  fold_right Z.max (seq db) (map fst (songs db)).

(** [cursor.lastrowid] after [INSERT INTO songs (name)]: one more than
    every id in the table and than [sqlite_sequence]. *)
Definition next_id (db : FingerprintDatabase) : Z := last_id db + 1.

(** SQLite holds an integer on 64 bits, and [sqlite3] raises
    [OverflowError] when it is given a Python integer outside that
    range to bind as a parameter. *)
Definition INT64_MIN : Z := - 2 ^ 63.
Definition INT64_MAX : Z := 2 ^ 63 - 1.

Definition binds (z : Z) : bool := (INT64_MIN <=? z) && (z <=? INT64_MAX).

(** The transaction of [insert_song] as it is committed: the database
    after it, and the id returned.  The call commits when the new id and
    every time offset are 64-bit integers ([insert_commits] below).
    With an offset outside that range [executemany] raises
    [OverflowError], the [with] block rolls the transaction back, the
    database stays as it was and no id is returned; the theorems that
    speak of the id returned or of the rows stored carry the condition
    [insert_commits]. *)
Definition insert_song (db : FingerprintDatabase) (name : string)
  (hashes : list Fingerprint.hash_tuple) : FingerprintDatabase * Z :=
  let song_id := next_id db in
  let fingerprint_data := map (fun '(h, t, _) => (h, song_id, t)) hashes in
  ({| songs := songs db ++ [(song_id, name)];
      fingerprints := fingerprints db ++ fingerprint_data;
      seq := song_id |},
   song_id).

(** The call [insert_song(name, hashes)] returns, rather than raise:
    the new id and every time offset are 64-bit integers.  The third
    component of the tuples is not bound. *)
Definition insert_commits (db : FingerprintDatabase)
  (hashes : list Fingerprint.hash_tuple) : bool :=
  binds (next_id db) && forallb (fun '(_, t, _) => binds t) hashes.

(** A probe hit [(song_id, db_time_offset, query_time_offset)]. *)
Definition hit : Type := Z * Z * Z.

(** [SELECT song_id, time_offset FROM fingerprints WHERE hash = ?]. *)
Definition select_hash (db : FingerprintDatabase) (hash_val : string)
  : list (Z * Z) :=
  map (fun '(_, song_id, db_offset) => (song_id, db_offset))
      (filter (fun '(h, _, _) => String.eqb h hash_val) (fingerprints db)).

Definition query (db : FingerprintDatabase)
  (hashes : list Fingerprint.hash_tuple) : list hit :=
  flat_map
    (fun '(hash_val, query_offset, _) =>
       map (fun '(song_id, db_offset) => (song_id, db_offset, query_offset))
           (select_hash db hash_val))
    hashes.

(** [SELECT name FROM songs WHERE id = ?], then [fetchone], for a
    [song_id] that [binds]: the id is bound as a parameter, and for an
    id outside 64 bits the call raises [OverflowError] instead of
    returning.  The ids [find_matches] looks up are read from stored
    rows, which SQLite holds on 64 bits. *)
Definition get_song (db : FingerprintDatabase) (song_id : Z)
  : option string :=
  match find (fun '(id, _) => id =? song_id) (songs db) with
  | Some (_, name) => Some name
  | None => None
  end.

Definition song_count (db : FingerprintDatabase) : Z :=
  Z.of_nat (List.length (songs db)).

Definition fingerprint_count (db : FingerprintDatabase) : Z :=
  Z.of_nat (List.length (fingerprints db)).

(** What the schema declares: [id] is a primary key, and [song_id] of a
    fingerprint row refers to a row of [songs]. *)
Definition primary_key (db : FingerprintDatabase) : Prop :=
  NoDup (map fst (songs db)).

Definition foreign_key (db : FingerprintDatabase) : Prop :=
  forall h sid t, In (h, sid, t) (fingerprints db) ->
                  In sid (map fst (songs db)).

Definition schema_ok (db : FingerprintDatabase) : Prop :=
  primary_key db /\ foreign_key db.

(** The databases the program builds: a new file, then inserts. *)
Inductive built : FingerprintDatabase -> Prop :=
| built_init : built init_db
| built_insert db name hashes :
    built db -> built (fst (insert_song db name hashes)).

(** The hits of one query entry on a list of fingerprint rows. *)
Definition entry_hits (rows : list fingerprint_row) (h : string) (tq : Z)
  : list hit :=
  map (fun '(song_id, db_offset) => (song_id, db_offset, tq))
      (map (fun '(_, song_id, db_offset) => (song_id, db_offset))
           (filter (fun '(h', _, _) => String.eqb h' h) rows)).

(** The song of a probe hit. *)
Definition hit_song (m : hit) : Z := fst (fst m).

(** The hits of song [id] among probe hits. *)
Definition hits_of_song (id : Z) (matches : list hit) : list hit :=
  filter (fun m => hit_song m =? id) matches.

(** The entries of a hash list that carry the hash string [h]. *)
Definition entries_of_hash (h : string)
  (hashes : list Fingerprint.hash_tuple) : list Fingerprint.hash_tuple :=
  filter (fun '(h', _, _) => String.eqb h' h) hashes.

(** A hash list with every third component replaced by [None]. *)
Definition forget_song_ids (hashes : list Fingerprint.hash_tuple)
  : list Fingerprint.hash_tuple :=
  map (fun '(h, t, _) => (h, t, None)) hashes.

(** How often a hash string occurs in a hash list. *)
Definition occurrences (h : string) (hashes : list Fingerprint.hash_tuple)
  : nat :=
  List.length (entries_of_hash h hashes).

(** [SELECT id, name FROM songs ORDER BY id]: the rows sorted by id,
    computed by insertion; rows of equal id, which a primary key rules
    out, would keep their table order. *)
Fixpoint insert_by_id (r : song_row) (l : list song_row) : list song_row :=
  match l with
  | [] => [r]
  | r' :: l' =>
      if fst r <=? fst r' then r :: r' :: l' else r' :: insert_by_id r l'
  end.

Definition list_songs (db : FingerprintDatabase) : list song_row :=
  fold_right insert_by_id [] (songs db).

(** The order of [list_songs]. *)
Definition by_id (r r' : song_row) : Prop := fst r <= fst r'.

End Database.

(** ** [matcher.py] *)
Module Matcher.

Import Database.

Definition MIN_MATCHES : Z := 5.

(** [confidence] is the Python float [best_count / len(query_hashes)],
    the quotient of two integers; it is kept here as the exact rational.
    Rounding to a float is monotone and leaves 0 and 1 unchanged, so the
    bounds proved on the rational hold for the float. *)
Record MatchResult : Type := {
  song_id : Z;
  song_name : option string;
  confidence : Q;
  aligned_matches : Z
}.

Inductive exception : Type :=
| ValueError
| ZeroDivisionError.

(** What a call does: raise, or return [None] or a result. *)
Inductive outcome : Type :=
| Raise (e : exception)
| Return (r : option MatchResult).

(** A key [(song_id, time_diff)] of [alignment_counts]. *)
Definition key : Type := Z * Z.

Definition key_eqb (k k' : key) : bool :=
  (fst k =? fst k') && (snd k =? snd k').

(** [alignment_counts] is a [defaultdict(int)].  A Python dict iterates
    in insertion order, and [max] below depends on that order, so the
    dict is the list of its items in insertion order. *)
Definition counts : Type := list (key * Z).

(** [alignment_counts[k]], 0 for a key that is not there. *)
Fixpoint get (d : counts) (k : key) : Z :=
  match d with
  | [] => 0
  | (k', c) :: d' => if key_eqb k k' then c else get d' k
  end.

(** [alignment_counts[k] += 1]: a new key goes to the end. *)
Fixpoint incr (d : counts) (k : key) : counts :=
  match d with
  | [] => [(k, 0 + 1)]
  | (k', c) :: d' =>
      if key_eqb k k' then (k', c + 1) :: d' else (k', c) :: incr d' k
  end.

(** The body of the loop over [matches]. *)
Definition vote (d : counts) (m : hit) : counts :=
  let '(song_id, db_offset, query_offset) := m in
  let time_diff := db_offset - query_offset in
  incr d (song_id, time_diff).

Definition count_alignments (matches : list hit) : counts :=
  fold_left vote matches [].

(** The keys of a dict, in insertion order. *)
Definition keys (d : counts) : list key := map fst d.

(** The key a hit votes for. *)
Definition hit_key (m : hit) : key :=
  let '(song_id, db_offset, query_offset) := m in
  (song_id, db_offset - query_offset).

(** [max(d, key=d.get)]: the keys in order, the running maximum replaced
    only by a strictly larger count; [ValueError] on an empty dict. *)
Fixpoint max_from (d : counts) (best : key) (d_rest : list (key * Z))
  : key :=
  match d_rest with
  | [] => best
  | (k, _) :: rest =>
      if get d k >? get d best then max_from d k rest
      else max_from d best rest
  end.

Definition max_key (d : counts) : option key :=
  match d with
  | [] => None
  | (k, _) :: rest => Some (max_from d k rest)
  end.

(** Lines 34 to 63 of [find_matches], for the probe result [matches]. *)
Definition find_matches_from (query_hashes : list Fingerprint.hash_tuple)
  (matches : list hit) (db : FingerprintDatabase) : outcome :=
  match matches with
  | [] => Return None
  | _ =>
      let alignment_counts := count_alignments matches in
      match max_key alignment_counts with
      | None => Raise ValueError
      | Some best_key =>
          let best_count := get alignment_counts best_key in
          let best_song_id := fst best_key in
          if best_count <? MIN_MATCHES then Return None
          else
            match query_hashes with
            | [] => Raise ZeroDivisionError
            | _ =>
                let confidence :=
                  (inject_Z best_count
                   / inject_Z (Z.of_nat (List.length query_hashes)))%Q in
                let song_name := get_song db best_song_id in
                Return (Some {| song_id := best_song_id;
                                song_name := song_name;
                                confidence := confidence;
                                aligned_matches := best_count |})
            end
      end
  end.

Definition find_matches (query_hashes : list Fingerprint.hash_tuple)
  (db : FingerprintDatabase) : outcome :=
  match query_hashes with
  | [] => Return None
  | _ => find_matches_from query_hashes (query db query_hashes) db
  end.

(** [r] is the first key of [l] with the largest value of [f]. *)
Definition first_max (f : key -> Z) (l : list key) (r : key) : Prop :=
  exists l1 l2,
    l = l1 ++ r :: l2
    /\ (forall k, In k l1 -> f k < f r)
    /\ (forall k, In k l2 -> f k <= f r).

(** The vote of a key: the number of hits that fall on it. *)
Definition votes (k : key) (matches : list hit) : Z :=
  Z.of_nat (List.length (filter (fun m => key_eqb (hit_key m) k) matches)).

(** The largest vote over the keys of the hits. *)
Definition best_votes (matches : list hit) : Z :=
  fold_right Z.max 0 (map (fun m => votes (hit_key m) matches) matches).

(** The key of the first hit, in probe order, whose key has the largest
    vote. *)
Definition first_best_key (matches : list hit) : option key :=
  option_map hit_key
    (find (fun m => votes (hit_key m) matches =? best_votes matches) matches).

(** A probe hit, and a key, for a query moved by [c] frames. *)
Definition shift_hit (c : Z) (m : hit) : hit :=
  let '(song_id, db_offset, query_offset) := m in
  (song_id, db_offset, query_offset + c).

Definition shift_key (c : Z) (k : key) : key := (fst k, snd k - c).

End Matcher.

(** ** [peaks.py]

    [find_peaks] works on a NumPy array of any element type and leaves the
    arithmetic to NumPy and SciPy.  The element type, its comparisons and
    the library calls are the operations of the class [Numeric]; the
    function below is written over them. *)
Module Peaks.

(** A 2-D array of shape [(nrows, ncols)], rows being frequency bins
    and columns time frames. *)
Record ndarray (num : Type) : Type := {
  nrows : nat;
  ncols : nat;
  cell : nat -> nat -> num
}.

Arguments nrows {num} _.
Arguments ncols {num} _.
Arguments cell {num} _ _ _.

Class Numeric : Type := {
  num : Type;
  (** the value 0 and the Python integer 2 as elements *)
  num_zero : num;
  num_two : num;
  (** [x == y], [x > y], [x + y], [x * y] *)
  num_eqb : num -> num -> bool;
  num_gtb : num -> num -> bool;
  num_add : num -> num -> num;
  num_mul : num -> num -> num;
  (** [np.mean(a)] and [np.std(a)] over the whole array *)
  np_mean : ndarray num -> num;
  np_std : ndarray num -> num;
  (** [maximum_filter(a, size)] read at a cell; the filtered array has
      the shape of [a] *)
  maximum_filter : ndarray num -> nat -> nat -> nat -> num
}.

Definition NEIGHBORHOOD_SIZE : nat := 20.

(** [np.where(mask)] on a 2-D mask: the row and the column indices of
    the true cells, in row-major order. *)
Definition np_where (rows cols : nat) (mask : nat -> nat -> bool)
  : list nat * list nat :=
  let cells :=
    flat_map (fun f => map (fun t => (f, t)) (filter (mask f) (seq 0 cols)))
             (seq 0 rows) in
  (map fst cells, map snd cells).

(** The threshold used when [amp_min] is [None]. *)
Definition default_amp_min `{Numeric} (spectrogram : ndarray num) : num :=
  num_add (np_mean spectrogram) (num_mul num_two (np_std spectrogram)).

Definition find_peaks `{Numeric} (spectrogram : ndarray num)
  (amp_min : option num) : list (Z * Z) :=
  let local_max := maximum_filter spectrogram NEIGHBORHOOD_SIZE in
  let is_peak f t := num_eqb (cell spectrogram f t) (local_max f t) in
  let amp_min :=
    match amp_min with
    | None => default_amp_min spectrogram
    | Some a => a
    end in
  let is_peak f t := is_peak f t && num_gtb (cell spectrogram f t) amp_min in
  let '(freq_idx, time_idx) :=
    np_where (nrows spectrogram) (ncols spectrogram) is_peak in
  combine (map Z.of_nat time_idx) (map Z.of_nat freq_idx).

(** Every cell of the array is the element 0. *)
Definition all_zero `{Numeric} (a : ndarray num) : Prop :=
  forall f t, (f < nrows a)%nat -> (t < ncols a)%nat -> cell a f t = num_zero.

(** What the proofs use of the arithmetic: the mean and the standard
    deviation of an array of zeros that has a cell are 0, [0 + 2 * 0] is
    0, and [0 > 0] is false. *)
Class NumericLaws `{Numeric} : Prop := {
  mean_zeros : forall a, all_zero a -> (0 < nrows a * ncols a)%nat ->
                         np_mean a = num_zero;
  std_zeros : forall a, all_zero a -> (0 < nrows a * ncols a)%nat ->
                        np_std a = num_zero;
  add_mul_zero : num_add num_zero (num_mul num_two num_zero) = num_zero;
  gtb_irrefl_zero : num_gtb num_zero num_zero = false
}.

(** The threshold [find_peaks] compares with: [amp_min] when it is
    given, the default otherwise. *)
Definition threshold `{Numeric} (spectrogram : ndarray num)
  (amp_min : option num) : num :=
  match amp_min with
  | None => default_amp_min spectrogram
  | Some a => a
  end.

(** The order of the cells [(row, column)] row by row. *)
Definition row_major (c c' : nat * nat) : Prop :=
  (fst c < fst c')%nat \/ (fst c = fst c' /\ (snd c < snd c')%nat).

(** The order of the cells row by row, on peaks [(t, f)]: ascending
    frequency, and ascending time within a frequency. *)
Definition freq_then_time (p q : Z * Z) : Prop :=
  snd p < snd q \/ (snd p = snd q /\ fst p < fst q).

(** An instance over [Z]: integer cells, the mean rounded down, the
    standard deviation as the integer square root of the mean squared
    deviation, and a maximum filter over the window of [size] cells
    around a cell, cut at the border of the array. *)
Definition cells_of (a : ndarray Z) : list Z :=
  flat_map (fun f => map (cell a f) (seq 0 (ncols a))) (seq 0 (nrows a)).

Definition sum_list (l : list Z) : Z := fold_right Z.add 0 l.

Definition mean_list (l : list Z) : Z := sum_list l / Z.of_nat (List.length l).

Definition Z_mean (a : ndarray Z) : Z := mean_list (cells_of a).

Definition Z_std (a : ndarray Z) : Z :=
  let m := Z_mean a in
  Z.sqrt (mean_list (map (fun x => (x - m) * (x - m)) (cells_of a))).

Definition Z_maximum_filter (a : ndarray Z) (size f t : nat) : Z :=
  let window n i :=
    filter (fun j => (j <? n)%nat) (seq (i - size / 2) size) in
  fold_right Z.max (cell a f t)
    (flat_map (fun f' => map (cell a f') (window (ncols a) t))
              (window (nrows a) f)).

#[export] Instance Z_Numeric : Numeric := {|
  num := Z;
  num_zero := 0;
  num_two := 2;
  num_eqb := Z.eqb;
  num_gtb := Z.gtb;
  num_add := Z.add;
  num_mul := Z.mul;
  np_mean := Z_mean;
  np_std := Z_std;
  maximum_filter := Z_maximum_filter
|}.

End Peaks.

(** ** [shazam.py]

    The facade chains the stages.  Decoding ([load_audio], a call to
    librosa that raises on a file it cannot read) and the transform
    ([compute_spectrogram], a call to SciPy) are operations of the class
    [Frontend], like [Path(filepath).stem]. *)
Module Shazam.

Import Fingerprint Database Matcher Peaks.

Class Frontend `{Numeric} : Type := {
  audio : Type;
  (** [load_audio(filepath)]: the signal and its rate, [None] when the
      call raises *)
  load_audio : string -> option (audio * Z);
  (** [compute_spectrogram(audio, sr)] *)
  compute_spectrogram : audio -> Z -> ndarray num;
  (** [Path(filepath).stem] *)
  stem : string -> string
}.

(** A call of the facade: the exception of [load_audio] passed on, or
    a value. *)
Inductive result (A : Type) : Type :=
| Raised
| Returned (a : A).

Arguments Raised {A}.
Arguments Returned {A} _.

Definition fingerprint `{Frontend} (filepath : string)
  : result (list hash_tuple) :=
  match load_audio filepath with
  | None => Raised
  | Some (audio, sr) =>
      let spectrogram := compute_spectrogram audio sr in
      let peaks := find_peaks spectrogram None in
      let hashes := generate_hashes peaks None in
      Returned hashes
  end.





(** An instance over the integer arrays: a file is decoded to a fixed
    one-row array with a spike every 20 frames, or to an array of zeros
    for the path ["silence"]; the empty path cannot be read. *)
Definition spikes : ndarray Z :=
  {| nrows := 1; ncols := 120;
     cell := fun _ t => if (t mod 20 =? 0)%nat then 100 else 0 |}.

Definition silence : ndarray Z :=
  {| nrows := 1; ncols := 120; cell := fun _ _ => 0 |}.

#[export] Instance Z_Frontend : @Frontend Z_Numeric := {|
  audio := ndarray Z;
  load_audio := fun path =>
    if String.eqb path "" then None
    else if String.eqb path "silence" then Some (silence, 44100)
    else Some (spikes, 44100);
  compute_spectrogram := fun a _ => a;
  stem := fun path => path
|}.

End Shazam.

(* ================================================================== *)
(** * Part II: properties *)
(* ================================================================== *)

(** ** SHA-1 test vectors and digest width *)
Module Sha1Facts.

Import Sha1.

Example sha1_abc :
  hexdigest (encode "abc") = "a9993e364706816aba3e25717850c26c9cd0d89d"%string.
Proof. vm_compute. reflexivity. Qed.

Example sha1_empty :
  hexdigest (encode "") = "da39a3ee5e6b4b0d3255bfef95601890afd80709"%string.
Proof. vm_compute. reflexivity. Qed.

Example sha1_two_blocks :
  hexdigest
    (encode "abcdbcdecdefdefgefghfghighijhijkijkljklmklmnlmnomnopnopq")
  = "84983e441c3bd26ebaae4aa1f95129e5e54670f1"%string.
Proof. vm_compute. reflexivity. Qed.

Lemma hexdigest_length (msg : list Z) :
  String.length (hexdigest msg) = 40%nat.
Proof.
  unfold hexdigest.
  destruct (digest msg) as [[[[h0 h1] h2] h3] h4].
  reflexivity.
Qed.

Lemma substring_prefix_length (n : nat) (s : string) :
  String.length (substring 0 n s) = Nat.min n (String.length s).
Proof.
  revert s; induction n as [|n IH]; intros [|c s]; simpl; auto.
Qed.

End Sha1Facts.

(** ** The hasher *)
Module FingerprintFacts.

Import Fingerprint.

(** *** The sort *)

Lemma insert_by_time_perm (p : peak) (l : list peak) :
  Permutation (p :: l) (insert_by_time p l).
Proof.
  induction l as [|q l IH]; simpl.
  - apply Permutation_refl.
  - destruct (fst p <=? fst q).
    + apply Permutation_refl.
    + eapply perm_trans; [apply perm_swap|].
      apply perm_skip, IH.
Qed.

Lemma sorted_by_time_perm (peaks : list peak) :
  Permutation peaks (sorted_by_time peaks).
Proof.
  unfold sorted_by_time.
  induction peaks as [|p l IH]; simpl.
  - constructor.
  - eapply perm_trans; [apply perm_skip, IH|].
    apply insert_by_time_perm.
Qed.

Lemma sorted_by_time_In (peaks : list peak) (p : peak) :
  In p (sorted_by_time peaks) <-> In p peaks.
Proof.
  split; apply Permutation_in;
    [apply Permutation_sym|]; apply sorted_by_time_perm.
Qed.

Lemma sorted_by_time_length (peaks : list peak) :
  List.length (sorted_by_time peaks) = List.length peaks.
Proof.
  symmetry. apply Permutation_length, sorted_by_time_perm.
Qed.

Lemma insert_by_time_sorted (p : peak) (l : list peak) :
  StronglySorted by_time l -> StronglySorted by_time (insert_by_time p l).
Proof.
  induction 1 as [|q l Hs IH Hq]; simpl.
  - repeat constructor.
  - destruct (fst p <=? fst q) eqn:E.
    + apply Z.leb_le in E.
      constructor; [constructor; assumption|].
      constructor; [exact E|].
      rewrite Forall_forall in *. intros r Hr.
      unfold by_time in *. specialize (Hq r Hr). lia.
    + apply Z.leb_gt in E.
      constructor; [exact IH|].
      rewrite Forall_forall in *. intros r Hr.
      apply (Permutation_in _ (Permutation_sym (insert_by_time_perm p l)))
        in Hr.
      destruct Hr as [<-|Hr]; [unfold by_time; lia|auto].
Qed.

Lemma sorted_by_time_sorted (peaks : list peak) :
  StronglySorted by_time (sorted_by_time peaks).
Proof.
  unfold sorted_by_time.
  induction peaks as [|p l IH]; simpl.
  - constructor.
  - apply insert_by_time_sorted, IH.
Qed.

Lemma insert_by_time_stable (t : Z) (p : peak) (l : list peak) :
  StronglySorted by_time l ->
  filter (at_time t) (insert_by_time p l) = filter (at_time t) (p :: l).
Proof.
  induction 1 as [|q l Hs IH Hq]; [reflexivity|].
  cbn [insert_by_time].
  destruct (fst p <=? fst q) eqn:E; [reflexivity|].
  apply Z.leb_gt in E.
  cbn [filter] in *. rewrite IH.
  destruct (at_time t q) eqn:Eq, (at_time t p) eqn:Ep; try reflexivity.
  unfold at_time in Eq, Ep. apply Z.eqb_eq in Eq, Ep. lia.
Qed.

Lemma sorted_by_time_stable (t : Z) (peaks : list peak) :
  filter (at_time t) (sorted_by_time peaks) = filter (at_time t) peaks.
Proof.
  unfold sorted_by_time.
  induction peaks as [|p l IH]; [reflexivity|].
  cbn [fold_right].
  rewrite insert_by_time_stable by apply (sorted_by_time_sorted l).
  cbn [filter]. fold (sorted_by_time l). unfold sorted_by_time. rewrite IH.
  reflexivity.
Qed.

(** Two lists ordered by time that agree on every group of equal time
    are the same list: a stable sort by time has one result only. *)
Lemma stable_sorted_unique (l1 l2 : list peak) :
  StronglySorted by_time l1 -> StronglySorted by_time l2 ->
  (forall t, filter (at_time t) l1 = filter (at_time t) l2) ->
  l1 = l2.
Proof.
  intros H1; revert l2.
  induction H1 as [|a l1 Hs1 IH Ha]; intros l2 H2 Hf.
  - destruct l2 as [|b l2]; [reflexivity|].
    specialize (Hf (fst b)). cbn in Hf. unfold at_time in Hf.
    rewrite Z.eqb_refl in Hf. discriminate.
  - destruct l2 as [|b l2].
    + specialize (Hf (fst a)). cbn in Hf. unfold at_time in Hf.
      rewrite Z.eqb_refl in Hf. discriminate.
    + inversion H2 as [|b' l2' Hs2 Hb]; subst.
      assert (Hab : fst a = fst b).
      { assert (In a (b :: l2)) as Ia.
        { pose proof (Hf (fst a)) as E.
          assert (In a (filter (at_time (fst a)) (a :: l1))) as I
            by (apply filter_In; split; [left; reflexivity|apply Z.eqb_refl]).
          rewrite E in I. apply filter_In in I. tauto. }
        assert (In b (a :: l1)) as Ib.
        { pose proof (Hf (fst b)) as E.
          assert (In b (filter (at_time (fst b)) (b :: l2))) as I
            by (apply filter_In; split; [left; reflexivity|apply Z.eqb_refl]).
          rewrite <- E in I. apply filter_In in I. tauto. }
        rewrite Forall_forall in Ha, Hb. unfold by_time in *.
        destruct Ia as [->|Ia]; [reflexivity|].
        destruct Ib as [->|Ib]; [reflexivity|].
        specialize (Ha b Ib). specialize (Hb a Ia). lia. }
      assert (a = b) as ->.
      { specialize (Hf (fst a)). cbn in Hf. unfold at_time in Hf.
        rewrite <- Hab, Z.eqb_refl in Hf. congruence. }
      f_equal. apply IH; [assumption|].
      intros t. specialize (Hf t). cbn in Hf.
      destruct (at_time t b); congruence.
Qed.

(** Whatever stable sort by time computes, it computes [sorted_by_time]. *)
Lemma sorted_by_time_unique (peaks l : list peak) :
  StronglySorted by_time l ->
  (forall t, filter (at_time t) l = filter (at_time t) peaks) ->
  l = sorted_by_time peaks.
Proof.
  intros Hs Hf. apply stable_sorted_unique; auto.
  - apply sorted_by_time_sorted.
  - intros t. rewrite Hf, sorted_by_time_stable. reflexivity.
Qed.

(** *** The target scan *)

Lemma scan_targets_In (t1 : Z) (rest : list peak) :
  forall (targets : list target) (x : target),
    In x (scan_targets t1 rest targets) ->
    In x targets \/ in_zone t1 rest x.
Proof.
  induction rest as [|[t2 f2] rest IH]; intros targets x Hx; cbn in Hx.
  - left; exact Hx.
  - assert (Hweak : forall y, in_zone t1 rest y ->
                              in_zone t1 ((t2, f2) :: rest) y).
    { intros [[a b] c] (Ha & Hb & Hc). repeat split; try tauto.
      right; exact Ha. }
    destruct (t2 - t1 <? TARGET_ZONE_START) eqn:Elo.
    { destruct (IH _ _ Hx); auto. }
    destruct (t2 - t1 >? TARGET_ZONE_END) eqn:Ehi; [left; exact Hx|].
    apply Z.ltb_ge in Elo.
    rewrite Z.gtb_ltb in Ehi. apply Z.ltb_ge in Ehi.
    assert (Hnew : forall y, In y (targets ++ [(t2, f2, t2 - t1)]) ->
                             In y targets \/ in_zone t1 ((t2, f2) :: rest) y).
    { intros y Hy. apply in_app_or in Hy.
      destruct Hy as [Hy|[<-|[]]]; [left; exact Hy|right].
      repeat split; try assumption. left; reflexivity. }
    destruct (Z.of_nat (List.length (targets ++ [(t2, f2, t2 - t1)]))
              >=? FAN_OUT).
    + apply Hnew, Hx.
    + destruct (IH _ _ Hx) as [Hy|Hy]; auto.
Qed.

Lemma scan_targets_length (t1 : Z) (rest : list peak) :
  forall targets : list target,
    Z.of_nat (List.length targets) < FAN_OUT ->
    Z.of_nat (List.length (scan_targets t1 rest targets)) <= FAN_OUT.
Proof.
  induction rest as [|[t2 f2] rest IH]; intros targets Hlen; cbn.
  - lia.
  - destruct (t2 - t1 <? TARGET_ZONE_START); [apply IH, Hlen|].
    destruct (t2 - t1 >? TARGET_ZONE_END); [lia|].
    destruct (Z.of_nat (List.length (targets ++ [(t2, f2, t2 - t1)]))
              >=? FAN_OUT) eqn:E.
    + rewrite length_app in *. cbn [List.length] in *. lia.
    + apply IH. rewrite Z.geb_leb in E. apply Z.leb_gt in E. exact E.
Qed.

(** *** The loop over the anchors *)

Lemma anchor_loop_app (song_id : option Z) (peaks : list peak) :
  forall hashes,
    anchor_loop song_id peaks hashes
    = hashes ++ anchor_loop song_id peaks [].
Proof.
  induction peaks as [|[t1 f1] rest IH]; intros hashes; cbn.
  - rewrite app_nil_r. reflexivity.
  - rewrite IH. rewrite (IH (emit _ _ _ _)). rewrite app_assoc. reflexivity.
Qed.

Lemma anchor_loop_cons (song_id : option Z) (t1 f1 : Z) (rest : list peak) :
  anchor_loop song_id ((t1, f1) :: rest) []
  = emit song_id t1 f1 (scan_targets t1 rest [])
    ++ anchor_loop song_id rest [].
Proof. cbn. apply anchor_loop_app. Qed.

Lemma emit_pairs (song_id : option Z) (t1 f1 : Z) (rest : list peak) :
  emit song_id t1 f1 (scan_targets t1 rest [])
  = map (tuple_of_pair song_id)
        (map (fun '(t2, f2, _) => ((t1, f1), (t2, f2)))
             (scan_targets t1 rest [])).
Proof.
  unfold emit. rewrite map_map. apply map_ext_in.
  intros [[t2 f2] d] Hx.
  destruct (scan_targets_In _ _ _ _ Hx) as [[]|(_ & -> & _)].
  reflexivity.
Qed.

Lemma anchor_loop_pairs (song_id : option Z) (peaks : list peak) :
  anchor_loop song_id peaks []
  = map (tuple_of_pair song_id) (anchor_target_pairs peaks).
Proof.
  induction peaks as [|[t1 f1] rest IH].
  - reflexivity.
  - rewrite anchor_loop_cons, IH, emit_pairs.
    cbn [anchor_target_pairs]. rewrite map_app. reflexivity.
Qed.

Lemma anchor_target_pairs_In (peaks : list peak) (a b : peak) :
  In (a, b) (anchor_target_pairs peaks) ->
  In a peaks /\ In b peaks /\
  TARGET_ZONE_START <= fst b - fst a <= TARGET_ZONE_END.
Proof.
  induction peaks as [|[t1 f1] rest IH]; cbn [anchor_target_pairs].
  - intros [].
  - intros H. apply in_app_or in H. destruct H as [H|H].
    + apply in_map_iff in H. destruct H as ([[t2 f2] d] & E & Hx).
      injection E as <- <-.
      destruct (scan_targets_In _ _ _ _ Hx) as [[]|(Hin & -> & Hz)].
      cbn. auto.
    + destruct (IH H) as (Ha & Hb & Hz). cbn. auto.
Qed.

Lemma anchor_target_pairs_length (peaks : list peak) :
  Z.of_nat (List.length (anchor_target_pairs peaks))
  <= FAN_OUT * Z.of_nat (List.length peaks).
Proof.
  induction peaks as [|[t1 f1] rest IH]; cbn [anchor_target_pairs].
  - cbn. lia.
  - rewrite length_app, length_map.
    pose proof (scan_targets_length t1 rest [] eq_refl) as Hs.
    cbn [List.length]. unfold FAN_OUT in *.
    rewrite Nat2Z.inj_add, Nat2Z.inj_succ.
    apply Z.le_trans with (15 + 15 * Z.of_nat (List.length rest));
      [apply Z.add_le_mono; assumption|lia].
Qed.

Lemma ties_by_freq_sorted (l : list peak) :
  StronglySorted by_time l -> ties_by_freq l ->
  StronglySorted time_then_freq l.
Proof.
  induction 1 as [|a l Hs IH Ha]; intros Ht; constructor.
  - apply IH. intros t. specialize (Ht t). cbn in Ht.
    destruct (at_time t a); [inversion Ht; assumption|exact Ht].
  - rewrite Forall_forall in *. intros r Hr.
    specialize (Ha r Hr). unfold by_time in Ha. unfold time_then_freq.
    destruct (Z.eq_dec (fst a) (fst r)) as [E|E]; [right|left; lia].
    split; [exact E|].
    specialize (Ht (fst a)). cbn in Ht. unfold at_time at 1 in Ht.
    rewrite Z.eqb_refl in Ht. inversion Ht as [|? ? _ Hall]; subst.
    rewrite Forall_forall in Hall. apply Hall.
    apply filter_In. split; [exact Hr|].
    unfold at_time. apply Z.eqb_eq. auto.
Qed.

(** *** The claims on the hasher *)

(** C3: every tuple emitted by [generate_hashes] carries the time of an
    anchor peak of the input and comes from a target peak of the input
    that lies 1 to 200 frames after the anchor; a single peak gives no
    hash, and neither do two peaks 0 frames or 201 frames apart. *)
Theorem generate_hashes_target_zone :
  (forall (P : list peak) (sid : option Z) (H : string) (t_anchor : Z)
          (s : option Z),
      In (H, t_anchor, s) (generate_hashes P sid) ->
      exists f1 t2 f2,
        In (t_anchor, f1) P /\ In (t2, f2) P /\
        1 <= t2 - t_anchor <= 200 /\
        H = hash_value f1 f2 (t2 - t_anchor) /\ s = sid)
  /\ (forall p sid, generate_hashes [p] sid = [])
  /\ (forall t1 f1 f2 sid, generate_hashes [(t1, f1); (t1, f2)] sid = [])
  /\ (forall t1 f1 f2 sid,
         generate_hashes [(t1, f1); (t1 + 201, f2)] sid = [] /\
         generate_hashes [(t1 + 201, f2); (t1, f1)] sid = []).
Proof.
  split; [|split; [|split]].
  - intros P sid H ta s Hin.
    unfold generate_hashes in Hin. rewrite anchor_loop_pairs in Hin.
    apply in_map_iff in Hin.
    destruct Hin as ([[t1 f1] [t2 f2]] & E & Hp).
    cbn in E. injection E as <- <- <-.
    apply anchor_target_pairs_In in Hp. destruct Hp as (Ha & Hb & Hz).
    rewrite sorted_by_time_In in Ha, Hb.
    exists f1, t2, f2. cbn in Hz.
    unfold TARGET_ZONE_START, TARGET_ZONE_END in Hz. auto.
  - intros [t f] sid. reflexivity.
  - intros t1 f1 f2 sid.
    unfold generate_hashes, sorted_by_time. cbn.
    rewrite Z.leb_refl. cbn. rewrite Z.sub_diag. reflexivity.
  - intros t1 f1 f2 sid.
    assert (E1 : (t1 <=? t1 + 201) = true) by (apply Z.leb_le; lia).
    assert (E2 : (t1 + 201 <=? t1) = false) by (apply Z.leb_gt; lia).
    assert (E3 : t1 + 201 - t1 = 201) by lia.
    unfold generate_hashes, sorted_by_time. cbn.
    rewrite E1, E2. cbn. rewrite E3. split; reflexivity.
Qed.

Lemma generate_hashes_target_zone_witness :
  exists f1 t2 f2,
    In (0, f1) [(0, 5); (1, 7)] /\ In (t2, f2) [(0, 5); (1, 7)] /\
    1 <= t2 - 0 <= 200 /\
    "e8c0e4a3ca9a4a42b9ad"%string = hash_value f1 f2 (t2 - 0) /\
    @None Z = None.
Proof.
  apply (proj1 generate_hashes_target_zone
               [(0, 5); (1, 7)] None "e8c0e4a3ca9a4a42b9ad"%string 0 None).
  vm_compute. left. reflexivity.
Defined.

(** C4: [generate_hashes] emits at most [FAN_OUT] = 15 tuples per input
    peak, since the scan of an anchor keeps at most 15 targets and one
    tuple is emitted per kept target. *)
Theorem generate_hashes_fan_out :
  FAN_OUT = 15
  /\ (forall t1 rest,
         Z.of_nat (List.length (scan_targets t1 rest [])) <= FAN_OUT)
  /\ (forall sid t1 f1 targets,
         List.length (emit sid t1 f1 targets) = List.length targets)
  /\ (forall P sid,
         Z.of_nat (List.length (generate_hashes P sid))
         <= FAN_OUT * Z.of_nat (List.length P)).
Proof.
  split; [reflexivity|split; [|split]].
  - intros t1 rest. apply scan_targets_length. reflexivity.
  - intros. apply length_map.
  - intros P sid. unfold generate_hashes.
    rewrite anchor_loop_pairs, length_map.
    rewrite <- (sorted_by_time_length P).
    apply anchor_target_pairs_length.
Qed.

(** An anchor with 19 peaks in its zone keeps the first 15 of them. *)
Example fan_out_cut :
  let P := map (fun i => (Z.of_nat i, 7)) (seq 0 20) in
  List.length (scan_targets 0 (tl P) []) = 15%nat
  /\ map (fun x => fst (fst x)) (scan_targets 0 (tl P) [])
     = map Z.of_nat (seq 1 15)
  /\ List.length (generate_hashes P None) = 180%nat.
Proof. vm_compute. repeat split. Qed.

(** C7: the token of an emitted tuple is computed from the two
    frequencies and the time difference of its anchor-target pair alone:
    it is the first 20 characters of the SHA-1 hexadecimal digest of
    the text [f1|f2|delta_t], it is 20 characters long, and the output
    of [generate_hashes] is the list of its pairs with that token, so
    pairs of equal frequencies and time difference get equal tokens
    whatever their anchor times and places in the list.  The digest is
    SHA-1: the digest of ["abc"] and the tokens of some pairs, small,
    large and negative, are those [hashlib] gives. *)
Theorem hash_token_of_pair :
  (forall f1 f2 delta_t,
      hash_value f1 f2 delta_t
      = substring 0 20
          (Sha1.hexdigest
             (Sha1.encode
                (str f1 ++ "|" ++ str f2 ++ "|" ++ str delta_t)%string)))
  /\ (forall f1 f2 delta_t,
         String.length (hash_value f1 f2 delta_t) = 20%nat)
  /\ (forall P sid,
         generate_hashes P sid
         = map (fun '((t1, f1), (t2, f2)) =>
                  (hash_value f1 f2 (t2 - t1), t1, sid))
               (anchor_target_pairs (sorted_by_time P)))
  /\ (forall t1 f1 t2 f2 t1' f1' t2' f2' sid sid',
         f1 = f1' -> f2 = f2' -> t2 - t1 = t2' - t1' ->
         fst (fst (tuple_of_pair sid ((t1, f1), (t2, f2))))
         = fst (fst (tuple_of_pair sid' ((t1', f1'), (t2', f2')))))
  /\ Sha1.hexdigest (Sha1.encode "abc")
     = "a9993e364706816aba3e25717850c26c9cd0d89d"%string
  /\ hash_value 5 7 1 = "e8c0e4a3ca9a4a42b9ad"%string
  /\ hash_value 1024 2048 200 = "3143867d7d0855f523a3"%string
  /\ hash_value (-3) 12 15 = "a5ddb071e327075351e6"%string
  /\ generate_hashes [(10, 5); (11, 7); (0, 3)] None
     = [("472a216f48564c831ea0"%string, 0, None);
        ("e95cf440a1d2ac5e7c41"%string, 0, None);
        ("e8c0e4a3ca9a4a42b9ad"%string, 10, None)].
Proof.
  split; [reflexivity|]. split; [|split; [|split]].
  - intros. unfold hash_value.
    rewrite Sha1Facts.substring_prefix_length, Sha1Facts.hexdigest_length.
    reflexivity.
  - intros P sid. unfold generate_hashes. rewrite anchor_loop_pairs.
    apply map_ext. intros [[t1 f1] [t2 f2]]. reflexivity.
  - intros. cbn. congruence.
  - repeat split; vm_compute; reflexivity.
Qed.

Lemma hash_token_of_pair_witness :
  fst (fst (tuple_of_pair (Some 3) ((40, 5), (41, 7))))
  = "e8c0e4a3ca9a4a42b9ad"%string.
Proof.
  destruct hash_token_of_pair as (_ & _ & _ & Hsame & _ & Hknown & _).
  rewrite (Hsame 40 5 41 7 0 5 1 7 (Some 3) None eq_refl eq_refl eq_refl).
  exact Hknown.
Defined.

(** C8, as the code has it: [generate_hashes] works on the peaks sorted
    by time alone, and the sort is stable, so peaks of equal time stay
    in the order of the input.  They are ordered by frequency when the
    input lists them so. *)
Theorem generate_hashes_sort_stable :
  forall P : list peak,
    Permutation P (sorted_by_time P)
    /\ StronglySorted by_time (sorted_by_time P)
    /\ (forall t, filter (at_time t) (sorted_by_time P)
                  = filter (at_time t) P)
    /\ (forall sid,
           generate_hashes P sid
           = map (tuple_of_pair sid)
                 (anchor_target_pairs (sorted_by_time P)))
    /\ (ties_by_freq P -> StronglySorted time_then_freq (sorted_by_time P)).
Proof.
  intros P. repeat split.
  - apply sorted_by_time_perm.
  - apply sorted_by_time_sorted.
  - intros t. apply sorted_by_time_stable.
  - intros sid. apply anchor_loop_pairs.
  - intros Ht. apply ties_by_freq_sorted.
    + apply sorted_by_time_sorted.
    + intros t. rewrite sorted_by_time_stable. apply Ht.
Qed.

Lemma generate_hashes_sort_stable_witness :
  StronglySorted time_then_freq (sorted_by_time [(1, 2); (0, 3); (0, 5)]).
Proof.
  apply (generate_hashes_sort_stable [(1, 2); (0, 3); (0, 5)]).
  intros t. unfold at_time. cbn [filter fst].
  destruct (1 =? t), (0 =? t);
    repeat first [apply SSorted_nil | apply SSorted_cons
                 | apply Forall_nil | apply Forall_cons];
    unfold by_freq; cbn [snd]; lia.
Defined.

(** C8, as the spec has it, fails: two peaks of equal time given in
    descending frequency stay in that order, and the tuples of the
    anchor of higher frequency come first. *)
Lemma sort_ties_not_by_freq :
  sorted_by_time [(0, 5); (0, 3)] = [(0, 5); (0, 3)]
  /\ ~ StronglySorted time_then_freq (sorted_by_time [(0, 5); (0, 3)])
  /\ generate_hashes [(0, 5); (0, 3); (1, 7)] None
     = [(hash_value 5 7 1, 0, None); (hash_value 3 7 1, 0, None)].
Proof.
  split; [reflexivity|split; [|reflexivity]].
  cbn. intros H. inversion H as [|? ? _ Hall]; subst.
  inversion Hall as [|? ? Hh _]; subst.
  unfold time_then_freq in Hh. cbn in Hh. lia.
Qed.

End FingerprintFacts.

(** ** The store *)
Module DatabaseFacts.

Import Fingerprint Database.

Lemma fold_max_ge (l : list Z) (z : Z) :
  z <= fold_right Z.max z l /\ Forall (fun x => x <= fold_right Z.max z l) l.
Proof.
  induction l as [|a l [IH1 IH2]]; cbn.
  - split; [lia|constructor].
  - split; [lia|]. constructor; [lia|].
    rewrite Forall_forall in *. intros x Hx. specialize (IH2 x Hx). lia.
Qed.

Lemma song_id_le_last (db : FingerprintDatabase) (id : Z) :
  In id (map fst (songs db)) -> id <= last_id db.
Proof.
  intros H. unfold last_id.
  destruct (fold_max_ge (map fst (songs db)) (seq db)) as [_ Hall].
  rewrite Forall_forall in Hall. auto.
Qed.

(** The id handed out by an insert is not the id of a song already in the
    table. *)
Lemma next_id_fresh (db : FingerprintDatabase) :
  ~ In (next_id db) (map fst (songs db)).
Proof.
  intros H. apply song_id_le_last in H. unfold next_id in H. lia.
Qed.

Lemma find_song_app_fresh (rows : list song_row) (id : Z) (name : string) :
  ~ In id (map fst rows) ->
  find (fun '(id', _) => id' =? id) (rows ++ [(id, name)]) = Some (id, name).
Proof.
  induction rows as [|[id' n] rows IH]; cbn; intros Hn.
  - rewrite Z.eqb_refl. reflexivity.
  - destruct (id' =? id) eqn:E.
    + apply Z.eqb_eq in E. tauto.
    + apply IH. tauto.
Qed.

Lemma get_song_insert (db : FingerprintDatabase) (name : string)
  (hashes : list hash_tuple) :
  get_song (fst (insert_song db name hashes)) (snd (insert_song db name hashes))
  = Some name.
Proof.
  unfold get_song. cbn.
  rewrite find_song_app_fresh by apply next_id_fresh. reflexivity.
Qed.

Lemma insert_song_schema_ok (db : FingerprintDatabase) (name : string)
  (hashes : list hash_tuple) :
  schema_ok db -> schema_ok (fst (insert_song db name hashes)).
Proof.
  intros [Hpk Hfk]. split.
  - unfold primary_key in *. cbn. rewrite map_app. cbn.
    apply Permutation_NoDup with (l := next_id db :: map fst (songs db)).
    + apply Permutation_cons_append.
    + constructor; [apply next_id_fresh|exact Hpk].
  - unfold foreign_key in *. cbn. intros h sid t Hin.
    rewrite map_app, in_app_iff. cbn.
    apply in_app_or in Hin. destruct Hin as [Hin|Hin].
    + left. eauto.
    + right. left. apply in_map_iff in Hin.
      destruct Hin as ([[h' t'] x] & E & _). congruence.
Qed.

(** Every database the program builds meets its schema. *)
Lemma built_schema_ok (db : FingerprintDatabase) :
  built db -> schema_ok db.
Proof.
  induction 1.
  - split; [constructor|intros h sid t []].
  - apply insert_song_schema_ok. assumption.
Qed.

Lemma query_cons (db : FingerprintDatabase) (e : hash_tuple)
  (hashes : list hash_tuple) :
  query db (e :: hashes) = query db [e] ++ query db hashes.
Proof. unfold query. cbn. rewrite app_nil_r. reflexivity. Qed.

Lemma query_flat (db : FingerprintDatabase) (hashes : list hash_tuple) :
  query db hashes = flat_map (fun e => query db [e]) hashes.
Proof.
  induction hashes as [|e hashes IH]; [reflexivity|].
  rewrite query_cons, IH. reflexivity.
Qed.

(** The hits of one query entry that belong to the song just inserted:
    one per entry of the inserted list with the same hash, in order. *)
Lemma query_entry (db : FingerprintDatabase) (h : string) (tq : Z)
  (x : option Z) :
  query db [(h, tq, x)] = entry_hits (fingerprints db) h tq.
Proof. unfold query, select_hash. cbn. apply app_nil_r. Qed.

Lemma entry_hits_app (r1 r2 : list fingerprint_row) (h : string) (tq : Z) :
  entry_hits (r1 ++ r2) h tq = entry_hits r1 h tq ++ entry_hits r2 h tq.
Proof. unfold entry_hits. rewrite filter_app, !map_app. reflexivity. Qed.

Lemma entry_hits_other_song (rows : list fingerprint_row) (h : string)
  (tq id : Z) :
  (forall h' sid t, In (h', sid, t) rows -> sid <> id) ->
  hits_of_song id (entry_hits rows h tq) = [].
Proof.
  unfold hits_of_song, entry_hits.
  induction rows as [|[[h' sid] t] rows IH]; intros Hne; [reflexivity|].
  assert (IH' := IH (fun a b c I => Hne a b c (or_intror I))).
  cbn. destruct (h' =? h)%string; [|exact IH'].
  cbn. unfold hit_song at 1. cbn.
  destruct (sid =? id) eqn:E; [|exact IH'].
  apply Z.eqb_eq in E. exfalso. apply (Hne h' sid t); [left; reflexivity|auto].
Qed.

Lemma entry_hits_new_rows (hashes : list hash_tuple) (h : string)
  (tq id : Z) :
  hits_of_song id
    (entry_hits (map (fun '(h', t, _) => (h', id, t)) hashes) h tq)
  = map (fun '(_, t, _) => (id, t, tq)) (entries_of_hash h hashes).
Proof.
  unfold hits_of_song, entry_hits, entries_of_hash.
  induction hashes as [|[[h' t] y] hashes IH]; [reflexivity|].
  cbn. destruct (h' =? h)%string; [|exact IH].
  cbn. unfold hit_song at 1. cbn. rewrite Z.eqb_refl. f_equal. exact IH.
Qed.

(** The hits of one query entry that belong to the song just inserted:
    one per entry of the inserted list with the same hash, in order. *)
Lemma query_entry_new_song (db : FingerprintDatabase) (name : string)
  (hashes : list hash_tuple) (h : string) (tq : Z) (x : option Z) :
  foreign_key db ->
  hits_of_song (next_id db) (query (fst (insert_song db name hashes))
                                   [(h, tq, x)])
  = map (fun '(_, t, _) => (next_id db, t, tq)) (entries_of_hash h hashes).
Proof.
  intros Hfk. rewrite query_entry. cbn [insert_song fst fingerprints].
  rewrite entry_hits_app. unfold hits_of_song at 1. rewrite filter_app.
  fold (hits_of_song (next_id db) (entry_hits (fingerprints db) h tq)).
  rewrite entry_hits_other_song.
  - apply entry_hits_new_rows.
  - intros h' sid t Hin ->. apply (next_id_fresh db). eapply Hfk, Hin.
Qed.

(** C5: after [id = insert_song(name, hs)] has returned (the new id and
    the time offsets are 64-bit integers), on a database that meets its
    schema, [get_song(id)] is [name]; for each entry of [hs] used as a
    query, the hits with the new song id are one per entry of [hs] with
    the same hash, each with the stored time and the time of the query
    entry, so there are as many as the hash occurs in [hs]; the probe of
    [hs] is these per-entry results one after the other; and with an
    empty [hs] the song row is added and no fingerprint row is. *)
Theorem store_round_trip :
  forall (db : FingerprintDatabase) (name : string) (hs : list hash_tuple),
    schema_ok db ->
    insert_commits db hs = true ->
    let db' := fst (insert_song db name hs) in
    let id := snd (insert_song db name hs) in
    get_song db' id = Some name
    /\ (forall h tq x, In (h, tq, x) hs ->
          hits_of_song id (query db' [(h, tq, x)])
          = map (fun '(_, t, _) => (id, t, tq)) (entries_of_hash h hs)
          /\ List.length (hits_of_song id (query db' [(h, tq, x)]))
             = occurrences h hs
          /\ (0 < occurrences h hs)%nat)
    /\ query db' hs = flat_map (fun e => query db' [e]) hs
    /\ (hs = [] ->
          songs db' = songs db ++ [(id, name)]
          /\ fingerprints db' = fingerprints db
          /\ fingerprint_count db' = fingerprint_count db
          /\ song_count db' = song_count db + 1
          /\ query db' hs = []).
Proof.
  intros db name hs [_ Hfk] _ db' id. split; [|split; [|split]].
  - apply get_song_insert.
  - intros h tq x Hin.
    assert (E := query_entry_new_song db name hs h tq x Hfk).
    fold db' in E. change (next_id db) with id in E.
    split; [exact E|]. split.
    + rewrite E, length_map. reflexivity.
    + unfold occurrences.
      assert (I : In (h, tq, x) (entries_of_hash h hs)).
      { apply filter_In. split; [exact Hin|apply String.eqb_refl]. }
      destruct (entries_of_hash h hs); [destruct I|cbn; lia].
  - apply query_flat.
  - intros ->. subst db' id. unfold fingerprint_count, song_count. cbn.
    rewrite app_nil_r, length_app. cbn. repeat split; try reflexivity. lia.
Qed.

Lemma store_round_trip_witness :
  let hs := [("aa"%string, 3, None); ("bb"%string, 4, None);
             ("aa"%string, 9, None)] in
  let db' := fst (insert_song init_db "tune" hs) in
  let id := snd (insert_song init_db "tune" hs) in
  get_song db' id = Some "tune"%string
  /\ List.length (hits_of_song id (query db' [("aa"%string, 3, None)]))
     = 2%nat.
Proof.
  intros hs db' id.
  destruct (store_round_trip init_db "tune" hs
              (built_schema_ok init_db built_init) eq_refl)
    as (Hname & Hhits & _).
  split; [exact Hname|].
  destruct (Hhits "aa"%string 3 None) as (_ & Hlen & _).
  - left. reflexivity.
  - exact Hlen.
Defined.

(** C10: the third component of the input tuples plays no part in
    [insert_song]: when the call returns, the rows added are the hash
    and the time of each tuple with the id handed out by this insert,
    an id no song of the table has, and replacing every third component
    by [None] gives the same database and the same id; whether the call
    returns does not depend on the third components either. *)
Theorem insert_song_ignores_song_id :
  forall (db : FingerprintDatabase) (name : string) (hs : list hash_tuple),
    insert_commits db hs = true ->
    let db' := fst (insert_song db name hs) in
    let id := snd (insert_song db name hs) in
    id = next_id db
    /\ ~ In id (map fst (songs db))
    /\ fingerprints db'
       = fingerprints db ++ map (fun e => (fst (fst e), id, snd (fst e))) hs
    /\ insert_song db name hs = insert_song db name (forget_song_ids hs)
    /\ insert_commits db (forget_song_ids hs) = true.
Proof.
  intros db name hs Hok db' id. subst db' id. cbn.
  split; [reflexivity|split; [apply next_id_fresh|split; [|split]]].
  - f_equal. apply map_ext. intros [[h t] x]. reflexivity.
  - unfold insert_song, forget_song_ids. rewrite map_map.
    do 3 f_equal. apply map_ext. intros [[h t] x]. reflexivity.
  - rewrite <- Hok. unfold insert_commits, forget_song_ids. f_equal.
    clear Hok. induction hs as [|[[h t] x] hs IH]; [reflexivity|].
    cbn [map forallb]. rewrite IH. reflexivity.
Qed.

Lemma insert_song_ignores_song_id_witness :
  let hs := [("aa"%string, 3, Some 7); ("bb"%string, 4, None);
             ("aa"%string, 9, Some 1)] in
  let db := fst (insert_song init_db "one" []) in
  snd (insert_song db "two" hs) = 2
  /\ fingerprints (fst (insert_song db "two" hs))
     = [("aa"%string, 2, 3); ("bb"%string, 2, 4); ("aa"%string, 2, 9)]
  /\ insert_song db "two" hs = insert_song db "two" (forget_song_ids hs).
Proof.
  intros hs db.
  destruct (insert_song_ignores_song_id db "two" hs eq_refl)
    as (Hid & _ & Hrows & Hsame & _).
  split; [exact Hid|]. split; [exact Hrows|exact Hsame].
Defined.

End DatabaseFacts.

(** ** The matcher *)
Module MatcherFacts.

Import Fingerprint Database Matcher.

(** *** Keys and counts *)

Lemma key_eqb_spec (k k' : key) : reflect (k = k') (key_eqb k k').
Proof.
  destruct k as [s d], k' as [s' d']. unfold key_eqb. cbn.
  destruct (Z.eqb_spec s s'), (Z.eqb_spec d d'); constructor; congruence.
Qed.

Lemma key_eqb_refl (k : key) : key_eqb k k = true.
Proof. destruct (key_eqb_spec k k); congruence. Qed.

Ltac key_cases :=
  repeat match goal with
         | |- context [key_eqb ?a ?b] =>
             destruct (key_eqb_spec a b); subst; try congruence
         | H : context [key_eqb ?a ?b] |- _ =>
             destruct (key_eqb_spec a b); subst; try congruence
         end.

Lemma get_incr (d : counts) (k k' : key) :
  get (incr d k) k' = if key_eqb k' k then get d k' + 1 else get d k'.
Proof.
  induction d as [|[k0 c] d IH]; cbn.
  - key_cases.
  - destruct (key_eqb_spec k k0); subst; cbn.
    + key_cases.
    + rewrite IH. key_cases.
Qed.

Lemma keys_incr (d : counts) (k : key) :
  keys (incr d k) = if existsb (key_eqb k) (keys d) then keys d
                    else keys d ++ [k].
Proof.
  induction d as [|[k0 c] d IH]; cbn; [reflexivity|].
  destruct (key_eqb_spec k k0); subst; cbn; [reflexivity|].
  unfold keys in *. rewrite IH.
  destruct (existsb (key_eqb k) (map fst d)); reflexivity.
Qed.

Lemma existsb_key_In (k : key) (l : list key) :
  existsb (key_eqb k) l = true <-> In k l.
Proof.
  rewrite existsb_exists. split.
  - intros (k' & Hin & E). destruct (key_eqb_spec k k'); congruence.
  - intros Hin. exists k. split; [exact Hin|apply key_eqb_refl].
Qed.

Lemma vote_hit_key (d : counts) (m : hit) : vote d m = incr d (hit_key m).
Proof. destruct m as [[s t] tq]. reflexivity. Qed.

Lemma votes_cons (k : key) (x : hit) (m : list hit) :
  votes k (x :: m)
  = (if key_eqb (hit_key x) k then 1 else 0) + votes k m.
Proof.
  unfold votes. cbn [filter].
  destruct (key_eqb (hit_key x) k); cbn [List.length]; lia.
Qed.

Lemma votes_app (k : key) (m1 m2 : list hit) :
  votes k (m1 ++ m2) = votes k m1 + votes k m2.
Proof. unfold votes. rewrite filter_app, length_app. lia. Qed.

Lemma votes_nonneg (k : key) (m : list hit) : 0 <= votes k m.
Proof. unfold votes. lia. Qed.

Lemma votes_pos_In (x : hit) (m : list hit) :
  In x m -> 0 < votes (hit_key x) m.
Proof.
  induction m as [|y m IH]; [intros []|].
  intros Hin. rewrite votes_cons.
  pose proof (votes_nonneg (hit_key x) m).
  destruct Hin as [->|Hin].
  - rewrite key_eqb_refl. lia.
  - specialize (IH Hin). destruct (key_eqb (hit_key y) (hit_key x)); lia.
Qed.

Lemma get_fold (m : list hit) :
  forall (d : counts) (k : key),
    get (fold_left vote m d) k = get d k + votes k m.
Proof.
  induction m as [|x m IH]; intros d k; cbn [fold_left].
  - unfold votes. cbn. lia.
  - rewrite IH, votes_cons, vote_hit_key, get_incr.
    destruct (key_eqb_spec k (hit_key x)); subst.
    + rewrite key_eqb_refl. lia.
    + destruct (key_eqb_spec (hit_key x) k); [congruence|lia].
Qed.

(** The count stored for a key is the number of hits on it. *)
Lemma get_count_alignments (m : list hit) (k : key) :
  get (count_alignments m) k = votes k m.
Proof. unfold count_alignments. apply (get_fold m [] k). Qed.

Lemma keys_fold_prefix (m : list hit) :
  forall d : counts, exists l, keys (fold_left vote m d) = keys d ++ l.
Proof.
  induction m as [|x m IH]; intros d; cbn [fold_left].
  - exists []. rewrite app_nil_r. reflexivity.
  - destruct (IH (vote d x)) as [l E]. rewrite E.
    rewrite vote_hit_key, keys_incr.
    destruct (existsb (key_eqb (hit_key x)) (keys d)).
    + exists l. reflexivity.
    + exists (hit_key x :: l). rewrite <- app_assoc. reflexivity.
Qed.

Lemma keys_fold_In (m : list hit) :
  forall (d : counts) (k : key),
    In k (keys (fold_left vote m d))
    <-> In k (keys d) \/ In k (map hit_key m).
Proof.
  induction m as [|x m IH]; intros d k; cbn [fold_left map].
  - cbn. tauto.
  - rewrite IH, vote_hit_key, keys_incr.
    destruct (existsb (key_eqb (hit_key x)) (keys d)) eqn:E.
    + apply existsb_key_In in E. cbn. intuition (subst; auto).
    + rewrite in_app_iff. cbn. tauto.
Qed.

Lemma keys_count_alignments_In (m : list hit) (k : key) :
  In k (keys (count_alignments m)) <-> In k (map hit_key m).
Proof.
  unfold count_alignments. rewrite keys_fold_In. cbn. tauto.
Qed.

(** The keys met up to the first hit on a key stay in front of it. *)
Lemma keys_first_hit (m1 m2 : list hit) (x : hit) :
  ~ In (hit_key x) (map hit_key m1) ->
  exists l,
    keys (count_alignments (m1 ++ x :: m2))
    = keys (count_alignments m1) ++ hit_key x :: l.
Proof.
  intros Hnew. unfold count_alignments.
  rewrite fold_left_app. cbn [fold_left].
  destruct (keys_fold_prefix m2 (vote (fold_left vote m1 []) x)) as [l E].
  rewrite E, vote_hit_key, keys_incr.
  destruct (existsb (key_eqb (hit_key x)) (keys (fold_left vote m1 [])))
    eqn:Ex.
  - apply existsb_key_In in Ex. apply keys_fold_In in Ex.
    destruct Ex as [[]|Ex]. contradiction.
  - exists l. rewrite <- app_assoc. reflexivity.
Qed.

(** *** The selection of the best key *)

Lemma max_from_first_max (d : counts) (rest : list (key * Z)) :
  forall (l1 : list key) (best : key) (mid : list key),
    (forall k, In k l1 -> get d k < get d best) ->
    (forall k, In k mid -> get d k <= get d best) ->
    first_max (get d) (l1 ++ best :: mid ++ keys rest)
              (max_from d best rest).
Proof.
  induction rest as [|[k c] rest IH]; intros l1 best mid H1 H2;
    cbn [max_from keys map fst].
  - exists l1, mid. rewrite app_nil_r. auto.
  - destruct (get d k >? get d best) eqn:E.
    + rewrite Z.gtb_ltb in E. apply Z.ltb_lt in E.
      replace (l1 ++ best :: mid ++ k :: map fst rest)
        with ((l1 ++ best :: mid) ++ k :: [] ++ keys rest)
        by (rewrite <- app_assoc; reflexivity).
      apply IH.
      * intros k' Hk'. apply in_app_or in Hk'.
        destruct Hk' as [Hk'|[<-|Hk']]; [specialize (H1 _ Hk')| |
                                         specialize (H2 _ Hk')]; lia.
      * intros k' [].
    + rewrite Z.gtb_ltb in E. apply Z.ltb_ge in E.
      replace (l1 ++ best :: mid ++ k :: map fst rest)
        with (l1 ++ best :: (mid ++ [k]) ++ keys rest)
        by (rewrite <- app_assoc; reflexivity).
      apply IH; [exact H1|].
      intros k' Hk'. apply in_app_or in Hk'.
      destruct Hk' as [Hk'|[<-|[]]]; [apply H2, Hk'|exact E].
Qed.

Lemma max_key_first_max (d : counts) :
  d <> [] ->
  exists r, max_key d = Some r /\ first_max (get d) (keys d) r.
Proof.
  destruct d as [|[k c] rest]; [congruence|]. intros _.
  exists (max_from ((k, c) :: rest) k rest). split; [reflexivity|].
  apply (max_from_first_max ((k, c) :: rest) rest [] k []);
    intros k' [].
Qed.

Lemma fold_max_is (l : list Z) (v : Z) :
  In v l -> (forall x, In x l -> x <= v) -> 0 <= v ->
  fold_right Z.max 0 l = v.
Proof.
  intros Hin Hle Hv.
  assert (Hub : forall l', (forall x, In x l' -> x <= v) ->
                           fold_right Z.max 0 l' <= v).
  { induction l' as [|a l' IH]; cbn; intros H; [exact Hv|].
    specialize (IH (fun x I => H x (or_intror I))).
    specialize (H a (or_introl eq_refl)). lia. }
  assert (Hlb : forall l', In v l' -> v <= fold_right Z.max 0 l').
  { induction l' as [|a l' IH]; cbn; [intros []|].
    intros [->|I]; [lia|]. specialize (IH I). lia. }
  specialize (Hub l Hle). specialize (Hlb l Hin). lia.
Qed.

Lemma best_votes_ge (m : list hit) (x : hit) :
  In x m -> votes (hit_key x) m <= best_votes m.
Proof.
  intros Hin. unfold best_votes.
  assert (H : In (votes (hit_key x) m)
                 (map (fun y => votes (hit_key y) m) m))
    by (apply in_map_iff; exists x; auto).
  revert H. generalize (map (fun y => votes (hit_key y) m) m) as l.
  induction l as [|a l IH]; cbn; [intros []|].
  intros [->|I]; [lia|]. specialize (IH I). lia.
Qed.

(** A key with the largest count has [best_votes] votes. *)
Lemma best_votes_is (m : list hit) (r : key) :
  In r (map hit_key m) ->
  (forall k, In k (map hit_key m) -> votes k m <= votes r m) ->
  best_votes m = votes r m.
Proof.
  intros Hin Hmax. unfold best_votes. apply fold_max_is.
  - apply in_map_iff in Hin. destruct Hin as (x & <- & Hx).
    apply in_map_iff. exists x. auto.
  - intros v Hv. apply in_map_iff in Hv. destruct Hv as (x & <- & Hx).
    apply Hmax, in_map, Hx.
  - apply votes_nonneg.
Qed.

Lemma find_first {A : Type} (p : A -> bool) (l : list A) (x : A) :
  find p l = Some x ->
  exists l1 l2, l = l1 ++ x :: l2 /\ p x = true
                /\ forall y, In y l1 -> p y = false.
Proof.
  induction l as [|a l IH]; cbn; [discriminate|].
  destruct (p a) eqn:E.
  - intros [= ->]. exists [], l. repeat split; auto. intros y [].
  - intros H. destruct (IH H) as (l1 & l2 & -> & Hx & Hl1).
    exists (a :: l1), l2. repeat split; auto.
    intros y [<-|Hy]; auto.
Qed.

Lemma first_with_value_unique (f : key -> Z) (v : Z) (l1 l1' : list key) :
  forall (r r' : key) (l2 l2' : list key),
    l1 ++ r :: l2 = l1' ++ r' :: l2' ->
    (forall k, In k l1 -> f k <> v) -> f r = v ->
    (forall k, In k l1' -> f k <> v) -> f r' = v ->
    r = r'.
Proof.
  revert l1'.
  induction l1 as [|a l1 IH];
    intros [|a' l1'] r r' l2 l2' E H1 Hr H1' Hr'; cbn in E.
  - congruence.
  - injection E as -> _. exfalso. apply (H1' a'); [left; reflexivity|exact Hr].
  - injection E as -> _. exfalso. apply (H1 r'); [left; reflexivity|exact Hr'].
  - injection E as -> E.
    apply (IH l1' r r' l2 l2' E); auto.
    + intros k Hk. apply H1. right. exact Hk.
    + intros k Hk. apply H1'. right. exact Hk.
Qed.

(** What lines 38 to 45 compute: the key picked by [max] is the key of
    the first hit whose key has the largest vote, and its count is that
    vote. *)
Lemma best_key_spec (m : list hit) :
  m <> [] ->
  exists r,
    max_key (count_alignments m) = Some r
    /\ first_best_key m = Some r
    /\ In r (map hit_key m)
    /\ get (count_alignments m) r = best_votes m
    /\ votes r m = best_votes m.
Proof.
  intros Hm.
  assert (Hd : count_alignments m <> []).
  { destruct m as [|x m]; [congruence|].
    intros E. assert (I : In (hit_key x) (keys (count_alignments (x :: m))))
      by (apply keys_count_alignments_In; left; reflexivity).
    rewrite E in I. destruct I. }
  destruct (max_key_first_max _ Hd) as (r & Hr & l1 & l2 & El & Hl1 & Hl2).
  assert (Hin : In r (map hit_key m)).
  { apply keys_count_alignments_In. rewrite El.
    apply in_or_app. right. left. reflexivity. }
  assert (Hmax : forall k, In k (map hit_key m) -> votes k m <= votes r m).
  { intros k Hk. apply keys_count_alignments_In in Hk.
    rewrite El in Hk. rewrite <- !get_count_alignments.
    apply in_app_or in Hk. destruct Hk as [Hk|[<-|Hk]].
    - specialize (Hl1 _ Hk). lia.
    - lia.
    - apply Hl2, Hk. }
  assert (Hbest : best_votes m = votes r m) by (apply best_votes_is; auto).
  exists r. repeat split; auto.
  2: rewrite get_count_alignments; auto.
  unfold first_best_key.
  destruct (find (fun x => votes (hit_key x) m =? best_votes m) m)
    as [x|] eqn:Ef.
  - cbn. f_equal.
    destruct (find_first _ _ _ Ef) as (m1 & m2 & Em & Hx & Hm1).
    apply Z.eqb_eq in Hx.
    assert (Hnew : ~ In (hit_key x) (map hit_key m1)).
    { intros I. apply in_map_iff in I. destruct I as (y & Ey & Hy).
      specialize (Hm1 y Hy). cbn in Hm1. rewrite Ey in Hm1.
      apply Z.eqb_neq in Hm1. contradiction. }
    destruct (keys_first_hit m1 m2 x Hnew) as [l Ek].
    rewrite <- Em in Ek. rewrite El in Ek.
    symmetry.
    apply (first_with_value_unique (fun k => votes k m) (best_votes m)
             l1 (keys (count_alignments m1)) r (hit_key x) l2 l Ek); auto.
    + intros k Hk. specialize (Hl1 k Hk).
      rewrite !get_count_alignments in Hl1. lia.
    + intros k Hk. apply keys_count_alignments_In in Hk.
      apply in_map_iff in Hk. destruct Hk as (y & <- & Hy).
      specialize (Hm1 y Hy). cbn in Hm1. apply Z.eqb_neq in Hm1. exact Hm1.
  - exfalso. apply in_map_iff in Hin. destruct Hin as (x & Ex & Hx).
    apply (find_none _ _ Ef) in Hx. cbn in Hx. apply Z.eqb_neq in Hx.
    rewrite Ex in Hx. auto.
Qed.

(** [find_matches_from] in terms of the votes. *)
Lemma find_matches_from_votes (q : list hash_tuple) (m : list hit)
  (db : FingerprintDatabase) :
  find_matches_from q m db
  = match first_best_key m with
    | None => Return None
    | Some k =>
        if best_votes m <? MIN_MATCHES then Return None
        else
          match q with
          | [] => Raise ZeroDivisionError
          | _ =>
              Return (Some {| song_id := fst k;
                              song_name := get_song db (fst k);
                              confidence :=
                                (inject_Z (best_votes m)
                                 / inject_Z (Z.of_nat (List.length q)))%Q;
                              aligned_matches := best_votes m |})
          end
    end.
Proof.
  destruct m as [|x m]; [reflexivity|].
  destruct (best_key_spec (x :: m)) as (r & Hr & Hf & _ & Hg & _);
    [discriminate|].
  unfold find_matches_from. rewrite Hr, Hf, Hg. reflexivity.
Qed.

Lemma first_best_key_None (m : list hit) :
  first_best_key m = None <-> m = [].
Proof.
  split; [|intros ->; reflexivity].
  destruct m as [|x m]; [reflexivity|]. intros H.
  destruct (best_key_spec (x :: m)) as (r & _ & Hf & _); [discriminate|].
  congruence.
Qed.

Lemma best_votes_nil : best_votes [] = 0.
Proof. reflexivity. Qed.

(** *** Votes under a reordering of the hits *)

Lemma votes_perm (k : key) (m1 m2 : list hit) :
  Permutation m1 m2 -> votes k m1 = votes k m2.
Proof.
  induction 1 as [|x l l' _ IH|x y l|l l' l'' _ IH1 _ IH2].
  - reflexivity.
  - rewrite !votes_cons, IH. reflexivity.
  - rewrite !votes_cons. lia.
  - congruence.
Qed.

Lemma best_votes_le_perm (m1 m2 : list hit) :
  Permutation m1 m2 -> best_votes m1 <= best_votes m2.
Proof.
  intros Hp. destruct m1 as [|x m1].
  - apply Permutation_nil in Hp. subst. reflexivity.
  - destruct (best_key_spec (x :: m1)) as (r & _ & _ & Hin & _ & Hv);
      [discriminate|].
    rewrite <- Hv, (votes_perm r _ _ Hp).
    apply in_map_iff in Hin. destruct Hin as (y & <- & Hy).
    apply best_votes_ge. apply (Permutation_in _ Hp Hy).
Qed.

Lemma best_votes_perm (m1 m2 : list hit) :
  Permutation m1 m2 -> best_votes m1 = best_votes m2.
Proof.
  intros Hp.
  pose proof (best_votes_le_perm _ _ Hp).
  pose proof (best_votes_le_perm _ _ (Permutation_sym Hp)). lia.
Qed.

Lemma first_best_key_votes (m : list hit) (k : key) :
  first_best_key m = Some k ->
  In k (map hit_key m) /\ votes k m = best_votes m.
Proof.
  intros Hk. destruct m as [|x m]; [discriminate|].
  destruct (best_key_spec (x :: m)) as (r & _ & Hf & Hin & _ & Hv);
    [discriminate|].
  rewrite Hk in Hf. injection Hf as ->. auto.
Qed.

(** *** Votes of a probe on a table without repeated rows *)

Lemma entry_hits_cons (h' : string) (s t : Z) (rows : list fingerprint_row)
  (h : string) (tq : Z) :
  entry_hits ((h', s, t) :: rows) h tq
  = if String.eqb h' h then (s, t, tq) :: entry_hits rows h tq
    else entry_hits rows h tq.
Proof.
  unfold entry_hits. cbn [filter]. destruct (h' =? h)%string; reflexivity.
Qed.

Lemma votes_entry_hits_In (rows : list fingerprint_row) (h : string)
  (tq : Z) (k : key) :
  0 < votes k (entry_hits rows h tq) -> In (h, fst k, snd k + tq) rows.
Proof.
  induction rows as [|[[h' s] t] rows IH]; [cbn; lia|].
  rewrite entry_hits_cons.
  destruct (String.eqb_spec h' h) as [->|Hne].
  - rewrite votes_cons.
    destruct (key_eqb_spec (hit_key (s, t, tq)) k) as [<-|Hk].
    + intros _. left. cbn. f_equal. lia.
    + intros H. right. apply IH. lia.
  - intros H. right. apply IH, H.
Qed.

Lemma votes_entry_hits_le (rows : list fingerprint_row) (h : string)
  (tq : Z) (k : key) :
  NoDup rows -> votes k (entry_hits rows h tq) <= 1.
Proof.
  induction 1 as [|[[h' s] t] rows Hnin Hnd IH]; [cbn; lia|].
  rewrite entry_hits_cons.
  destruct (String.eqb_spec h' h) as [->|Hne]; [|exact IH].
  rewrite votes_cons.
  destruct (key_eqb_spec (hit_key (s, t, tq)) k) as [<-|Hk]; [|lia].
  pose proof (votes_nonneg (hit_key (s, t, tq)) (entry_hits rows h tq)) as Hge.
  destruct (Z.eq_dec (votes (hit_key (s, t, tq)) (entry_hits rows h tq)) 0)
    as [E|E]; [lia|].
  exfalso. apply Hnin.
  assert (Hin := votes_entry_hits_In rows h tq (hit_key (s, t, tq))).
  cbn [hit_key fst snd] in Hin.
  replace (t - tq + tq) with t in Hin by lia. apply Hin.
  cbn [hit_key] in *. lia.
Qed.

Lemma votes_query_le (db : FingerprintDatabase) (q : list hash_tuple)
  (k : key) :
  NoDup (fingerprints db) ->
  votes k (query db q) <= Z.of_nat (List.length q).
Proof.
  intros Hnd. induction q as [|[[h tq] x] q IH]; [cbn; lia|].
  rewrite DatabaseFacts.query_cons, votes_app, DatabaseFacts.query_entry.
  pose proof (votes_entry_hits_le (fingerprints db) h tq k Hnd).
  cbn [List.length]. lia.
Qed.

Lemma best_votes_query_le (db : FingerprintDatabase) (q : list hash_tuple) :
  NoDup (fingerprints db) ->
  best_votes (query db q) <= Z.of_nat (List.length q).
Proof.
  intros Hnd. destruct (query db q) as [|x m] eqn:E.
  - cbn. lia.
  - destruct (best_key_spec (x :: m)) as (r & _ & _ & _ & _ & Hv);
      [discriminate|].
    rewrite <- Hv, <- E. apply votes_query_le, Hnd.
Qed.

Lemma inject_Z_pos (n : Z) : 0 < n -> (0 < inject_Z n)%Q.
Proof. intros Hn. unfold Qlt. cbn. lia. Qed.

Lemma confidence_pos (b n : Z) :
  0 < b -> 0 < n -> (0 < inject_Z b / inject_Z n)%Q.
Proof.
  intros Hb Hn. apply Qlt_shift_div_l.
  - apply inject_Z_pos, Hn.
  - rewrite Qmult_0_l. apply inject_Z_pos, Hb.
Qed.

Lemma confidence_le_1 (b n : Z) :
  b <= n -> 0 < n -> (inject_Z b / inject_Z n <= 1)%Q.
Proof.
  intros Hb Hn. apply Qle_shift_div_r.
  - apply inject_Z_pos, Hn.
  - rewrite Qmult_1_l. rewrite <- Zle_Qle. exact Hb.
Qed.

(** *** The claims on the matcher *)

(** C1, as the code has it: for a query that is not empty and whose
    largest vote [best_count] is at least 5 (so the probe has a hit),
    [find_matches] returns a result whose [aligned_matches] is
    [best_count], whose [confidence] is [best_count] divided by the
    number of query hashes and is positive, whose [song_id] is the song
    of the winning key, the key of the first hit with the largest vote,
    and whose [song_name] is what the store gives for that id.  The
    confidence is at most 1 when no fingerprint row is stored twice. *)
Theorem find_matches_result :
  forall (q : list hash_tuple) (db : FingerprintDatabase),
    q <> [] ->
    MIN_MATCHES <= best_votes (query db q) ->
    exists (r : MatchResult) (k : key),
      find_matches q db = Return (Some r)
      /\ query db q <> []
      /\ first_best_key (query db q) = Some k
      /\ votes k (query db q) = best_votes (query db q)
      /\ aligned_matches r = best_votes (query db q)
      /\ confidence r
         = (inject_Z (best_votes (query db q))
            / inject_Z (Z.of_nat (List.length q)))%Q
      /\ (0 < confidence r)%Q
      /\ song_id r = fst k
      /\ song_name r = get_song db (fst k)
      /\ (NoDup (fingerprints db) -> (confidence r <= 1)%Q).
Proof.
  intros q db Hq Hmin. unfold MIN_MATCHES in Hmin.
  assert (Hhits : query db q <> []).
  { intros E. rewrite E in Hmin. cbn in Hmin. lia. }
  destruct (first_best_key (query db q)) as [k|] eqn:Hk;
    [|apply first_best_key_None in Hk; contradiction].
  destruct (first_best_key_votes _ _ Hk) as [_ Hv].
  assert (Hlen : 0 < Z.of_nat (List.length q))
    by (destruct q; [congruence|cbn [List.length]; lia]).
  eexists. exists k. split.
  - unfold find_matches. destruct q as [|e q]; [congruence|].
    rewrite find_matches_from_votes, Hk.
    replace (best_votes (query db (e :: q)) <? MIN_MATCHES) with false
      by (symmetry; apply Z.ltb_ge; exact Hmin).
    reflexivity.
  - cbn [aligned_matches confidence song_id song_name].
    repeat split; auto.
    + apply confidence_pos; lia.
    + intros Hnd. apply confidence_le_1; [|exact Hlen].
      apply best_votes_query_le, Hnd.
Qed.

Lemma find_matches_result_witness :
  let hs := [("aa"%string, 0, None); ("bb"%string, 1, None);
             ("cc"%string, 2, None); ("dd"%string, 3, None);
             ("ee"%string, 4, @None Z)] in
  let db := fst (insert_song init_db "tune" hs) in
  exists (r : MatchResult) (k : key),
    find_matches hs db = Return (Some r)
    /\ query db hs <> []
    /\ first_best_key (query db hs) = Some k
    /\ votes k (query db hs) = best_votes (query db hs)
    /\ aligned_matches r = best_votes (query db hs)
    /\ confidence r
       = (inject_Z (best_votes (query db hs))
          / inject_Z (Z.of_nat (List.length hs)))%Q
    /\ (0 < confidence r)%Q
    /\ song_id r = fst k
    /\ song_name r = get_song db (fst k)
    /\ (NoDup (fingerprints db) -> (confidence r <= 1)%Q).
Proof.
  intros hs db. apply (find_matches_result hs db).
  - discriminate.
  - assert (E : best_votes (query db hs) = 5) by (vm_compute; reflexivity).
    rewrite E. unfold MIN_MATCHES. lia.
Defined.

(** C1, as the spec has it, fails on the bound of the confidence: a
    song stored with five equal fingerprint rows, probed with one hash,
    gets five votes for one query hash. *)
Lemma confidence_above_one :
  let hs := repeat ("aa"%string, 0, @None Z) 5 in
  let db := fst (insert_song init_db "tune" hs) in
  let q := [("aa"%string, 0, @None Z)] in
  q <> []
  /\ query db q <> []
  /\ MIN_MATCHES <= best_votes (query db q)
  /\ exists r : MatchResult,
       find_matches q db = Return (Some r)
       /\ aligned_matches r = 5
       /\ confidence r = (5 # 1)%Q
       /\ ~ (0 <= confidence r <= 1)%Q.
Proof.
  intros hs db q. split; [discriminate|]. split; [discriminate|].
  split; [vm_compute; discriminate|].
  eexists. split; [vm_compute; reflexivity|].
  cbn [aligned_matches confidence].
  split; [reflexivity|]. split; [reflexivity|].
  intros [_ H]. unfold Qle in H. cbn in H. lia.
Qed.

(** C2: [find_matches] returns [None] exactly when the query is empty,
    or the probe has no hit, or the largest vote is below
    [MIN_MATCHES] = 5; it never raises, so in every other case it
    returns a result. *)
Theorem find_matches_none_iff :
  forall (q : list hash_tuple) (db : FingerprintDatabase),
    MIN_MATCHES = 5
    /\ (find_matches q db = Return None
        <-> q = [] \/ query db q = []
            \/ best_votes (query db q) < MIN_MATCHES)
    /\ (find_matches q db = Return None
        \/ exists r, find_matches q db = Return (Some r)).
Proof.
  intros q db. split; [reflexivity|].
  unfold find_matches. destruct q as [|e q].
  - split; [|left; reflexivity]. split; auto.
  - rewrite find_matches_from_votes.
    destruct (first_best_key (query db (e :: q))) as [k|] eqn:Hk.
    + assert (Hne : query db (e :: q) <> []).
      { intros E. apply first_best_key_None in E. congruence. }
      destruct (Z.ltb_spec (best_votes (query db (e :: q))) MIN_MATCHES)
        as [Hlt|Hge].
      * split; [|left; reflexivity]. split; auto.
      * split; [|right; eexists; reflexivity].
        split; [discriminate|].
        intros [H|[H|H]]; [discriminate|contradiction|lia].
    + apply first_best_key_None in Hk.
      split; [|left; reflexivity]. split; auto.
Qed.

Lemma find_matches_none_iff_witness :
  let hs := [("aa"%string, 0, None); ("bb"%string, 1, @None Z)] in
  let db := fst (insert_song init_db "tune" hs) in
  find_matches hs db = Return None.
Proof.
  intros hs db.
  apply (proj1 (proj2 (find_matches_none_iff hs db))).
  right. right. vm_compute. reflexivity.
Defined.

(** C9, as the code has it: for two probe results that are reorderings
    of each other, the largest vote is the same, [find_matches] returns
    [None] on both or on neither, and two results have the same
    [aligned_matches] and [confidence].  The song returned is the song
    of the first hit, in probe order, whose key has the largest vote.
    When all keys with the largest vote belong to one song, the two
    outcomes are equal. *)
Theorem find_matches_probe_order :
  forall (q : list hash_tuple) (db : FingerprintDatabase)
         (m1 m2 : list hit),
    Permutation m1 m2 ->
    best_votes m1 = best_votes m2
    /\ (find_matches_from q m1 db = Return None
        <-> find_matches_from q m2 db = Return None)
    /\ (forall r1 r2,
           find_matches_from q m1 db = Return (Some r1) ->
           find_matches_from q m2 db = Return (Some r2) ->
           aligned_matches r1 = aligned_matches r2
           /\ confidence r1 = confidence r2)
    /\ (forall r1,
           find_matches_from q m1 db = Return (Some r1) ->
           exists k, first_best_key m1 = Some k
                     /\ votes k m1 = best_votes m1
                     /\ song_id r1 = fst k)
    /\ ((forall x y, In x m1 -> In y m1 ->
                     votes (hit_key x) m1 = best_votes m1 ->
                     votes (hit_key y) m1 = best_votes m1 ->
                     fst (hit_key x) = fst (hit_key y)) ->
        find_matches_from q m1 db = find_matches_from q m2 db).
Proof.
  intros q db m1 m2 Hp.
  pose proof (best_votes_perm _ _ Hp) as Hb.
  assert (Hnone : first_best_key m1 = None <-> first_best_key m2 = None).
  { rewrite !first_best_key_None. split; intros ->.
    - apply Permutation_nil, Hp.
    - apply Permutation_nil, Permutation_sym, Hp. }
  split; [exact Hb|].
  rewrite !find_matches_from_votes, <- Hb.
  destruct (first_best_key m1) as [k1|] eqn:H1,
           (first_best_key m2) as [k2|] eqn:H2;
    try (exfalso; destruct Hnone as [Ha Hc];
         first [specialize (Ha eq_refl) | specialize (Hc eq_refl)];
         discriminate).
  - destruct (first_best_key_votes _ _ H1) as [Hin1 Hv1].
    destruct (first_best_key_votes _ _ H2) as [Hin2 Hv2].
    destruct (best_votes m1 <? MIN_MATCHES); [|destruct q as [|e q]].
    + repeat split; try discriminate; auto.
    + repeat split; try discriminate; auto.
    + split; [split; discriminate|]. split; [|split].
      * intros r1 r2 [= <-] [= <-]. split; reflexivity.
      * intros r1 [= <-]. exists k1. auto.
      * intros Hsame.
        apply in_map_iff in Hin1. destruct Hin1 as (x & <- & Hx).
        apply in_map_iff in Hin2. destruct Hin2 as (y & <- & Hy).
        apply (Permutation_in _ (Permutation_sym Hp)) in Hy.
        rewrite <- (votes_perm _ _ _ Hp), <- Hb in Hv2.
        rewrite (Hsame x y Hx Hy Hv1 Hv2). reflexivity.
  - repeat split; try discriminate; auto.
Qed.

Lemma find_matches_probe_order_witness :
  let m1 := repeat (1, 0, 0) 5 ++ [(2, 7, 0)] in
  let m2 := (2, 7, 0) :: repeat (1, 0, 0) 5 in
  let q := repeat ("aa"%string, 0, @None Z) 6 in
  let db := fst (insert_song init_db "tune" q) in
  find_matches_from q m1 db = find_matches_from q m2 db.
Proof.
  intros m1 m2 q db.
  apply (find_matches_probe_order q db m1 m2).
  - apply Permutation_sym, Permutation_cons_append.
  - intros x y Hx Hy. cbn in Hx, Hy.
    repeat (destruct Hx as [<-|Hx]); try destruct Hx;
      repeat (destruct Hy as [<-|Hy]); try destruct Hy;
      vm_compute; intros; solve [reflexivity | discriminate].
Defined.

(** C9, as the spec has it, fails: with two keys tied for the largest
    vote, the song returned is the one whose hit comes first in the
    probe result, so two orders of the same hits give two songs. *)
Lemma tie_follows_probe_order :
  let m1 := repeat (1, 0, 0) 5 ++ repeat (2, 0, 0) 5 in
  let m2 := repeat (2, 0, 0) 5 ++ repeat (1, 0, 0) 5 in
  let q := repeat ("aa"%string, 0, @None Z) 5 in
  let db := fst (insert_song (fst (insert_song init_db "one" q)) "two" q) in
  Permutation m1 m2
  /\ (exists r1 r2,
        find_matches_from q m1 db = Return (Some r1)
        /\ find_matches_from q m2 db = Return (Some r2)
        /\ song_id r1 = 1 /\ song_id r2 = 2)
  /\ find_matches_from q m1 db <> find_matches_from q m2 db.
Proof.
  intros m1 m2 q db. split; [apply Permutation_app_comm|]. split.
  - eexists. eexists. split; [vm_compute; reflexivity|].
    split; [vm_compute; reflexivity|]. split; reflexivity.
  - vm_compute. discriminate.
Qed.

End MatcherFacts.

(** ** The peak picker *)
Module PeaksFacts.

Import Peaks.

Lemma combine_swap {A B : Type} (g : A -> B) (cells : list (A * A)) :
  combine (map g (map snd cells)) (map g (map fst cells))
  = map (fun c => (g (snd c), g (fst c))) cells.
Proof.
  induction cells as [|[a b] cells IH]; [reflexivity|].
  cbn. rewrite IH. reflexivity.
Qed.

(** The cells picked by [np.where], as pairs [(row, column)]. *)
Lemma np_where_cells (rows cols : nat) (mask : nat -> nat -> bool)
  (f t : nat) :
  In (f, t)
     (flat_map (fun f => map (fun t => (f, t)) (filter (mask f) (seq 0 cols)))
               (seq 0 rows))
  <-> (f < rows)%nat /\ (t < cols)%nat /\ mask f t = true.
Proof.
  rewrite in_flat_map. split.
  - intros (f' & Hf & Hin). apply in_map_iff in Hin.
    destruct Hin as (t' & [= <- <-] & Ht). apply filter_In in Ht.
    apply in_seq in Hf. destruct Ht as [Ht Hm]. apply in_seq in Ht.
    repeat split; try lia. exact Hm.
  - intros (Hf & Ht & Hm). exists f. split; [apply in_seq; lia|].
    apply in_map. apply filter_In. split; [apply in_seq; lia|exact Hm].
Qed.

Lemma np_where_none (rows cols : nat) (mask : nat -> nat -> bool) :
  (forall f t, (f < rows)%nat -> (t < cols)%nat -> mask f t = false) ->
  flat_map (fun f => map (fun t => (f, t)) (filter (mask f) (seq 0 cols)))
           (seq 0 rows) = [].
Proof.
  intros Hnone.
  destruct (flat_map _ (seq 0 rows)) as [|[f t] l] eqn:E; [reflexivity|].
  assert (I : In (f, t) ((f, t) :: l)) by (left; reflexivity).
  rewrite <- E in I. apply np_where_cells in I.
  destruct I as (Hf & Ht & Hm). rewrite (Hnone f t Hf Ht) in Hm.
  discriminate.
Qed.

Lemma find_peaks_cells `{Numeric} (S : ndarray num) (amp_min : option num) :
  find_peaks S amp_min
  = let amp :=
      match amp_min with
      | None => default_amp_min S
      | Some a => a
      end in
    map (fun c => (Z.of_nat (snd c), Z.of_nat (fst c)))
        (flat_map
           (fun f =>
              map (fun t => (f, t))
                  (filter
                     (fun t =>
                        num_eqb (cell S f t)
                                (maximum_filter S NEIGHBORHOOD_SIZE f t)
                        && num_gtb (cell S f t) amp)
                     (seq 0 (ncols S))))
           (seq 0 (nrows S))).
Proof. unfold find_peaks, np_where. cbn. apply combine_swap. Qed.

(** *** The order of the peaks handed to the hasher

    [np.where] lists the cells row by row, so the peaks returned by
    [find_peaks] come in ascending frequency; the stable sort by time
    then leaves peaks of equal time in ascending frequency. *)

Lemma StronglySorted_app {A : Type} (R : A -> A -> Prop) (l1 l2 : list A) :
  StronglySorted R l1 -> StronglySorted R l2 ->
  (forall x y, In x l1 -> In y l2 -> R x y) ->
  StronglySorted R (l1 ++ l2).
Proof.
  induction 1 as [|a l1 Hs IH Ha]; intros H2 Hc; cbn; [exact H2|].
  constructor.
  - apply IH; [exact H2|]. intros x y Hx Hy. apply Hc; [right|]; assumption.
  - apply Forall_app. split; [exact Ha|].
    apply Forall_forall. intros y Hy. apply Hc; [left; reflexivity|exact Hy].
Qed.

Lemma StronglySorted_filter {A : Type} (R : A -> A -> Prop)
  (p : A -> bool) (l : list A) :
  StronglySorted R l -> StronglySorted R (filter p l).
Proof.
  induction 1 as [|a l Hs IH Ha]; cbn; [constructor|].
  destruct (p a); [|exact IH].
  constructor; [exact IH|].
  rewrite Forall_forall in *. intros y Hy. apply filter_In in Hy.
  apply Ha. tauto.
Qed.

Lemma StronglySorted_map {A B : Type} (R : B -> B -> Prop) (g : A -> B)
  (l : list A) :
  StronglySorted (fun a a' => R (g a) (g a')) l ->
  StronglySorted R (map g l).
Proof.
  induction 1 as [|a l Hs IH Ha]; cbn; constructor; [exact IH|].
  rewrite Forall_forall in *. intros y Hy. apply in_map_iff in Hy.
  destruct Hy as (x & <- & Hx). apply Ha, Hx.
Qed.

Lemma row_major_sorted (cols : nat) (mask : nat -> nat -> bool) :
  forall len start : nat,
    StronglySorted (fun c c' : nat * nat => (fst c <= fst c')%nat)
      (flat_map
         (fun f => map (fun t => (f, t)) (filter (mask f) (seq 0 cols)))
         (seq start len)).
Proof.
  induction len as [|len IH]; intros start; cbn [seq flat_map].
  - constructor.
  - apply StronglySorted_app.
    + generalize (filter (mask start) (seq 0 cols)) as ts.
      induction ts as [|t ts IHts]; cbn; constructor; [exact IHts|].
      apply Forall_forall. intros c Hc. apply in_map_iff in Hc.
      destruct Hc as (t' & <- & _). cbn. lia.
    + apply IH.
    + intros x y Hx Hy. apply in_map_iff in Hx.
      destruct Hx as (t & <- & _). apply in_flat_map in Hy.
      destruct Hy as (f & Hf & Hy). apply in_map_iff in Hy.
      destruct Hy as (t' & <- & _). apply in_seq in Hf. cbn. lia.
Qed.

Lemma find_peaks_by_freq `{Numeric} (S : ndarray num)
  (amp_min : option num) :
  StronglySorted Fingerprint.by_freq (find_peaks S amp_min).
Proof.
  rewrite find_peaks_cells. cbn zeta. apply StronglySorted_map.
  unfold Fingerprint.by_freq. cbn [snd].
  eapply StronglySorted_ind with
    (P := fun l => StronglySorted
             (fun a a' : nat * nat => Z.of_nat (fst a) <= Z.of_nat (fst a')) l);
    [constructor| |apply row_major_sorted].
  intros a l _ IH Ha. constructor; [exact IH|].
  rewrite Forall_forall in *. intros y Hy. specialize (Ha y Hy). lia.
Qed.

(** In [Shazam.fingerprint], where the hasher gets the output of
    [find_peaks], the sorted peaks are in ascending time with equal
    times in ascending frequency. *)
Lemma fingerprint_peaks_time_then_freq `{Numeric} (S : ndarray num)
  (amp_min : option num) :
  StronglySorted Fingerprint.time_then_freq
    (Fingerprint.sorted_by_time (find_peaks S amp_min)).
Proof.
  apply FingerprintFacts.ties_by_freq_sorted.
  - apply FingerprintFacts.sorted_by_time_sorted.
  - intros t. rewrite FingerprintFacts.sorted_by_time_stable.
    apply StronglySorted_filter, find_peaks_by_freq.
Qed.

(** The laws hold for the instance over [Z]. *)
Lemma cells_of_zero (a : ndarray Z) :
  all_zero a -> Forall (fun x => x = 0) (cells_of a).
Proof.
  intros Hz. apply Forall_forall. intros x Hx.
  unfold cells_of in Hx. apply in_flat_map in Hx.
  destruct Hx as (f & Hf & Hx). apply in_map_iff in Hx.
  destruct Hx as (t & <- & Ht). apply in_seq in Hf, Ht.
  apply (Hz f t); [exact (proj2 Hf)|exact (proj2 Ht)].
Qed.

Lemma mean_list_zero (l : list Z) :
  Forall (fun x => x = 0) l -> mean_list l = 0.
Proof.
  intros Hz. unfold mean_list.
  assert (E : sum_list l = 0).
  { induction Hz as [|x l Hx _ IH]; [reflexivity|].
    cbn. unfold sum_list in IH. rewrite IH, Hx. reflexivity. }
  rewrite E. apply Zdiv_0_l.
Qed.

#[export] Instance Z_NumericLaws : @NumericLaws Z_Numeric.
Proof.
  split.
  - intros a Hz _. apply mean_list_zero, cells_of_zero, Hz.
  - intros a Hz _. cbn. unfold Z_std.
    assert (Hm : Z_mean a = 0)
      by (apply mean_list_zero, cells_of_zero, Hz).
    rewrite Hm, mean_list_zero; [reflexivity|].
    apply Forall_forall. intros y Hy. apply in_map_iff in Hy.
    destruct Hy as (x & <- & Hx).
    pose proof (cells_of_zero a Hz) as Hall.
    rewrite Forall_forall in Hall. rewrite (Hall x Hx). reflexivity.
  - reflexivity.
  - reflexivity.
Qed.

(** C6: with no threshold given, every pair [(t, f)] returned by
    [find_peaks] is a cell of the spectrogram whose value equals the
    size-20 maximum filter at that cell and is strictly greater than
    [mean + 2 * std] taken over the whole spectrogram; hence a
    spectrogram of zeros has no peak. *)
Theorem find_peaks_above_threshold :
  forall (N : Numeric) (S : ndarray num),
    NEIGHBORHOOD_SIZE = 20%nat
    /\ (forall t f : Z,
          In (t, f) (find_peaks S None) ->
          exists fi ti : nat,
            t = Z.of_nat ti /\ f = Z.of_nat fi
            /\ (fi < nrows S)%nat /\ (ti < ncols S)%nat
            /\ num_eqb (cell S fi ti)
                       (maximum_filter S NEIGHBORHOOD_SIZE fi ti) = true
            /\ num_gtb (cell S fi ti)
                       (num_add (np_mean S) (num_mul num_two (np_std S)))
               = true)
    /\ (NumericLaws -> all_zero S -> find_peaks S None = []).
Proof.
  intros N S. split; [reflexivity|]. split.
  - intros t f Hin. rewrite find_peaks_cells in Hin. cbn zeta in Hin.
    apply in_map_iff in Hin. destruct Hin as ([fi ti] & [= <- <-] & Hc).
    apply np_where_cells in Hc. destruct Hc as (Hf & Ht & Hm).
    apply andb_true_iff in Hm. destruct Hm as [He Hg].
    exists fi, ti. cbn [fst snd]. repeat split; assumption.
  - intros L Hz. rewrite find_peaks_cells. cbn zeta.
    rewrite np_where_none; [reflexivity|].
    intros f t Hf Ht. apply andb_false_iff. right.
    assert (Hcells : (0 < nrows S * ncols S)%nat) by nia.
    unfold default_amp_min.
    rewrite (mean_zeros S Hz Hcells), (std_zeros S Hz Hcells).
    rewrite add_mul_zero, (Hz f t Hf Ht). apply gtb_irrefl_zero.
Qed.

Lemma Z_maximum_filter_proj (a : ndarray Z) (size f t : nat) :
  @maximum_filter Z_Numeric a size f t = Z_maximum_filter a size f t.
Proof. reflexivity. Qed.

Lemma Z_eqb_proj (x y : Z) : @num_eqb Z_Numeric x y = (x =? y).
Proof. reflexivity. Qed.

Lemma find_peaks_above_threshold_witness :
  let zeros : ndarray Z :=
    {| nrows := 2; ncols := 3; cell := fun _ _ => 0 |} in
  let bump : ndarray Z :=
    {| nrows := 2; ncols := 3;
       cell := fun f t => if ((f =? 1) && (t =? 2))%nat then 100 else 1 |} in
  @find_peaks Z_Numeric zeros None = []
  /\ exists fi ti : nat,
       2 = Z.of_nat ti /\ 1 = Z.of_nat fi
       /\ (fi < 2)%nat /\ (ti < 3)%nat
       /\ (cell bump fi ti =? Z_maximum_filter bump 20 fi ti) = true
       /\ (cell bump fi ti >? Z_mean bump + 2 * Z_std bump) = true.
Proof.
  intros zeros bump. split.
  - apply (proj2 (proj2 (find_peaks_above_threshold Z_Numeric zeros))).
    + exact Z_NumericLaws.
    + intros f t _ _. reflexivity.
  - destruct (proj1 (proj2 (find_peaks_above_threshold Z_Numeric bump)) 2 1)
      as (fi & ti & H1 & H2 & H3 & H4 & H5 & H6).
    + vm_compute. left. reflexivity.
    + rewrite Z_eqb_proj, Z_maximum_filter_proj in H5.
      exists fi, ti. repeat split; assumption.
Defined.

End PeaksFacts.

(* ================================================================== *)
(** * Part III: further properties of the code *)
(* ================================================================== *)

(** ** More on the hasher *)
Module FingerprintMore.

Import Fingerprint FingerprintFacts.

(** *** A shift in time *)

Lemma insert_by_time_shift (c : Z) (p : peak) (l : list peak) :
  insert_by_time (shift_peak c p) (map (shift_peak c) l)
  = map (shift_peak c) (insert_by_time p l).
Proof.
  induction l as [|q l IH]; [reflexivity|].
  cbn [map insert_by_time]. unfold shift_peak at 1 2. cbn [fst].
  replace (fst p + c <=? fst q + c) with (fst p <=? fst q).
  - destruct (fst p <=? fst q); [reflexivity|].
    cbn [map]. rewrite <- IH. reflexivity.
  - destruct (Z.leb_spec (fst p) (fst q)), (Z.leb_spec (fst p + c) (fst q + c));
      auto; lia.
Qed.

Lemma sorted_by_time_shift (c : Z) (peaks : list peak) :
  sorted_by_time (map (shift_peak c) peaks)
  = map (shift_peak c) (sorted_by_time peaks).
Proof.
  unfold sorted_by_time.
  induction peaks as [|p l IH]; [reflexivity|].
  cbn [map fold_right]. rewrite IH. apply insert_by_time_shift.
Qed.

Lemma scan_targets_shift (c t1 : Z) (rest : list peak) :
  forall targets : list target,
    scan_targets (t1 + c) (map (shift_peak c) rest)
                 (map (shift_target c) targets)
    = map (shift_target c) (scan_targets t1 rest targets).
Proof.
  induction rest as [|[t2 f2] rest IH]; intros targets; [reflexivity|].
  cbn [map scan_targets shift_peak fst snd].
  replace (t2 + c - (t1 + c)) with (t2 - t1) by lia.
  destruct (t2 - t1 <? TARGET_ZONE_START); [apply IH|].
  destruct (t2 - t1 >? TARGET_ZONE_END); [reflexivity|].
  replace (map (shift_target c) targets ++ [(t2 + c, f2, t2 - t1)])
    with (map (shift_target c) (targets ++ [(t2, f2, t2 - t1)]))
    by (rewrite map_app; reflexivity).
  rewrite length_map.
  destruct (Z.of_nat (List.length (targets ++ [(t2, f2, t2 - t1)]))
            >=? FAN_OUT); [reflexivity|apply IH].
Qed.

Lemma anchor_target_pairs_shift (c : Z) (peaks : list peak) :
  anchor_target_pairs (map (shift_peak c) peaks)
  = map (shift_pair c) (anchor_target_pairs peaks).
Proof.
  induction peaks as [|[t1 f1] rest IH]; [reflexivity|].
  cbn [map anchor_target_pairs shift_peak fst snd].
  pose proof (scan_targets_shift c t1 rest []) as E. cbn [map] in E.
  rewrite IH, map_app, E, !map_map.
  apply (f_equal2 (@app (peak * peak))); [|reflexivity].
  apply map_ext. intros [[t2 f2] d]. reflexivity.
Qed.

Lemma anchor_loop_shift (c : Z) (peaks : list peak) (sid : option Z) :
  anchor_loop sid (map (shift_peak c) peaks) []
  = map (shift_tuple c) (anchor_loop sid peaks []).
Proof.
  rewrite !anchor_loop_pairs, anchor_target_pairs_shift, !map_map.
  apply map_ext. intros [[t1 f1] [t2 f2]].
  cbn. replace (t2 + c - (t1 + c)) with (t2 - t1) by lia. reflexivity.
Qed.

Lemma generate_hashes_shift (c : Z) (P : list peak) (sid : option Z) :
  generate_hashes (map (shift_peak c) P) sid
  = map (shift_tuple c) (generate_hashes P sid).
Proof.
  unfold generate_hashes. rewrite sorted_by_time_shift.
  apply anchor_loop_shift.
Qed.

(** X1: moving every peak by the same number of frames moves the
    anchor time of every tuple by that number and changes nothing else:
    same tokens, same song id, same order. *)
Theorem generate_hashes_time_shift :
  forall (c : Z) (P : list peak) (sid : option Z),
    generate_hashes (map (shift_peak c) P) sid
    = map (shift_tuple c) (generate_hashes P sid)
    /\ map (fun x => fst (fst x)) (generate_hashes (map (shift_peak c) P) sid)
       = map (fun x => fst (fst x)) (generate_hashes P sid)
    /\ map anchor_time (generate_hashes (map (shift_peak c) P) sid)
       = map (fun x => anchor_time x + c) (generate_hashes P sid).
Proof.
  intros c P sid. rewrite generate_hashes_shift, !map_map.
  split; [reflexivity|].
  split; apply map_ext; intros [[h t] s]; reflexivity.
Qed.

(** *** The order of the output *)

Lemma anchor_target_pairs_sorted (peaks : list peak) :
  StronglySorted by_time peaks ->
  StronglySorted (fun a b : peak * peak => fst (fst a) <= fst (fst b))
                 (anchor_target_pairs peaks).
Proof.
  induction 1 as [|[t1 f1] rest Hs IH Hp]; [constructor|].
  cbn [anchor_target_pairs]. apply PeaksFacts.StronglySorted_app.
  - generalize (scan_targets t1 rest []) as ts.
    induction ts as [|[[t2 f2] d] ts IHts]; cbn; constructor; [exact IHts|].
    apply Forall_forall. intros a Ha. apply in_map_iff in Ha.
    destruct Ha as ([[t2' f2'] d'] & <- & _). cbn. lia.
  - exact IH.
  - intros a [b1 b2] Ha Hb. apply in_map_iff in Ha.
    destruct Ha as ([[t2 f2] d] & <- & _).
    apply anchor_target_pairs_In in Hb. destruct Hb as [Hb _].
    rewrite Forall_forall in Hp. specialize (Hp _ Hb).
    unfold by_time in Hp. cbn in *. exact Hp.
Qed.

(** X2: the tuples come out in ascending anchor time, whatever the
    order of the input peaks. *)
Theorem generate_hashes_anchor_order :
  forall (P : list peak) (sid : option Z),
    StronglySorted Z.le (map anchor_time (generate_hashes P sid)).
Proof.
  intros P sid. unfold generate_hashes.
  rewrite anchor_loop_pairs, map_map.
  apply PeaksFacts.StronglySorted_map.
  pose proof (anchor_target_pairs_sorted _ (sorted_by_time_sorted P)) as H.
  induction H as [|[[t1 f1] [t2 f2]] l Hs IH Ha]; constructor; [exact IH|].
  rewrite Forall_forall in *. intros [[t1' f1'] [t2' f2']] Hy.
  specialize (Ha _ Hy). cbn in *. exact Ha.
Qed.

(** *** The order of the input *)

Lemma filter_perm {A : Type} (p : A -> bool) (l l' : list A) :
  Permutation l l' -> Permutation (filter p l) (filter p l').
Proof.
  induction 1 as [|x l l' _ IH|x y l|l l' l'' _ IH1 _ IH2]; cbn.
  - constructor.
  - destruct (p x); [apply perm_skip|]; exact IH.
  - destruct (p x), (p y); try apply Permutation_refl. apply perm_swap.
  - eapply perm_trans; eassumption.
Qed.

Lemma at_time_single (t : Z) (l : list peak) :
  NoDup (map fst l) -> (List.length (filter (at_time t) l) <= 1)%nat.
Proof.
  induction l as [|p l IH]; cbn; [lia|].
  intros Hnd. inversion Hnd as [|? ? Hnin Hnd']; subst.
  specialize (IH Hnd'). unfold at_time at 1.
  destruct (Z.eqb_spec (fst p) t) as [E|E]; [|exact IH].
  destruct (filter (at_time t) l) as [|q l'] eqn:Ef; [cbn; lia|].
  exfalso. apply Hnin.
  assert (I : In q (filter (at_time t) l)) by (rewrite Ef; left; reflexivity).
  apply filter_In in I. destruct I as [I Hq].
  unfold at_time in Hq. apply Z.eqb_eq in Hq.
  rewrite E, <- Hq. apply in_map, I.
Qed.

(** X3: two peak lists that hold the same peaks of each time in the
    same order give the same output; in particular the order of the
    input does not matter when no two peaks share a time. *)
Theorem generate_hashes_input_order :
  forall (P P' : list peak) (sid : option Z),
    ((forall t, filter (at_time t) P = filter (at_time t) P') ->
     generate_hashes P sid = generate_hashes P' sid)
    /\ (Permutation P P' -> NoDup (map fst P) ->
        generate_hashes P sid = generate_hashes P' sid).
Proof.
  intros P P' sid.
  assert (Hsame : (forall t, filter (at_time t) P = filter (at_time t) P') ->
                  generate_hashes P sid = generate_hashes P' sid).
  { intros Hf. unfold generate_hashes. f_equal. symmetry.
    apply sorted_by_time_unique; [apply sorted_by_time_sorted|].
    intros t. rewrite sorted_by_time_stable. symmetry. apply Hf. }
  split; [exact Hsame|].
  intros Hp Hnd. apply Hsame. intros t.
  pose proof (filter_perm (at_time t) _ _ Hp) as Hfp.
  pose proof (at_time_single t P Hnd) as Hlen.
  destruct (filter (at_time t) P) as [|a [|b l]].
  - apply Permutation_nil in Hfp. auto.
  - apply Permutation_length_1_inv in Hfp. auto.
  - cbn in Hlen. lia.
Qed.

Lemma generate_hashes_input_order_witness :
  generate_hashes [(0, 5); (1, 7); (3, 2)] None
  = generate_hashes [(3, 2); (0, 5); (1, 7)] None.
Proof.
  apply (proj2 (generate_hashes_input_order
                  [(0, 5); (1, 7); (3, 2)] [(3, 2); (0, 5); (1, 7)] None)).
  - apply Permutation_sym, (Permutation_cons_append [(0, 5); (1, 7)] (3, 2)).
  - cbn. repeat constructor; cbn; intuition discriminate.
Defined.

(** *** Every pair in the zone is hashed *)

Lemma scan_targets_prefix (t1 : Z) (rest : list peak) :
  forall targets, exists l, scan_targets t1 rest targets = targets ++ l.
Proof.
  induction rest as [|[t2 f2] rest IH]; intros targets; cbn.
  - exists []. rewrite app_nil_r. reflexivity.
  - destruct (t2 - t1 <? TARGET_ZONE_START); [apply IH|].
    destruct (t2 - t1 >? TARGET_ZONE_END).
    { exists []. rewrite app_nil_r. reflexivity. }
    destruct (Z.of_nat (List.length (targets ++ [(t2, f2, t2 - t1)]))
              >=? FAN_OUT).
    + exists [(t2, f2, t2 - t1)]. reflexivity.
    + destruct (IH (targets ++ [(t2, f2, t2 - t1)])) as [l E].
      exists ((t2, f2, t2 - t1) :: l). rewrite E, <- app_assoc. reflexivity.
Qed.

Lemma in_target_zone_spec (t1 : Z) (q : peak) :
  in_target_zone t1 q = true <-> 1 <= fst q - t1 <= 200.
Proof.
  unfold in_target_zone, TARGET_ZONE_START, TARGET_ZONE_END.
  rewrite andb_true_iff, !Z.leb_le. tauto.
Qed.

Lemma scan_targets_complete (t1 : Z) (rest : list peak) :
  StronglySorted by_time rest ->
  forall (targets : list target) (q : peak),
    (List.length targets + List.length (filter (in_target_zone t1) rest)
     < 15)%nat ->
    In q rest -> in_target_zone t1 q = true ->
    In (fst q, snd q, fst q - t1) (scan_targets t1 rest targets).
Proof.
  induction 1 as [|[t2 f2] rest Hs IH Hp]; intros targets q Hlen Hin Hq;
    [destruct Hin|].
  pose proof (proj1 (in_target_zone_spec t1 q) Hq) as Hqz.
  cbn [scan_targets]. cbn [filter] in Hlen.
  unfold TARGET_ZONE_START, TARGET_ZONE_END.
  destruct (Z.ltb_spec (t2 - t1) 1) as [Hlo|Hlo].
  - assert (E : in_target_zone t1 (t2, f2) = false).
    { apply not_true_iff_false. rewrite in_target_zone_spec. cbn. lia. }
    rewrite E in Hlen.
    destruct Hin as [<-|Hin]; [cbn in Hqz; lia|].
    apply IH; assumption.
  - rewrite Z.gtb_ltb. destruct (Z.ltb_spec 200 (t2 - t1)) as [Hhi|Hhi].
    + exfalso. destruct Hin as [<-|Hin]; [cbn in Hqz; lia|].
      rewrite Forall_forall in Hp. specialize (Hp q Hin).
      unfold by_time in Hp. cbn in Hp. lia.
    + assert (E : in_target_zone t1 (t2, f2) = true).
      { apply in_target_zone_spec. cbn. lia. }
      rewrite E in Hlen. cbn [List.length] in Hlen.
      assert (Hl : List.length (targets ++ [(t2, f2, t2 - t1)])
                   = S (List.length targets))
        by (rewrite length_app; cbn; lia).
      unfold FAN_OUT. rewrite Z.geb_leb.
      destruct (Z.leb_spec 15 (Z.of_nat
                  (List.length (targets ++ [(t2, f2, t2 - t1)]))))
        as [Hfan|Hfan]; [rewrite Hl in Hfan; lia|].
      destruct Hin as [<-|Hin].
      * destruct (scan_targets_prefix t1 rest
                    (targets ++ [(t2, f2, t2 - t1)])) as [l ->].
        apply in_or_app. left. apply in_or_app. right. left. reflexivity.
      * apply IH; [rewrite Hl; lia|assumption|assumption].
Qed.

Lemma anchor_target_pairs_suffix (l1 l2 : list peak) (a : peak * peak) :
  In a (anchor_target_pairs l2) -> In a (anchor_target_pairs (l1 ++ l2)).
Proof.
  induction l1 as [|[t f] l1 IH]; [auto|].
  intros H. cbn [app anchor_target_pairs]. apply in_or_app. right. auto.
Qed.

Lemma sorted_split (l1 l2 : list peak) (p : peak) :
  StronglySorted by_time (l1 ++ p :: l2) ->
  (forall x, In x l1 -> fst x <= fst p) /\ StronglySorted by_time l2.
Proof.
  induction l1 as [|a l1 IH]; cbn; intros H.
  - inversion H; subst. split; [intros x []|assumption].
  - inversion H as [|? ? Hs Ha]; subst. destruct (IH Hs) as [H1 H2].
    split; [|exact H2]. intros x [<-|Hx]; [|auto].
    rewrite Forall_forall in Ha. apply (Ha p).
    apply in_or_app. right. left. reflexivity.
Qed.

(** X5: a pair of peaks of the input whose time difference lies in
    1..200 gets its tuple, as long as fewer than 15 peaks lie in the
    zone of the anchor: the scan misses no target before the fan-out
    is reached. *)
Theorem generate_hashes_complete :
  forall (P : list peak) (sid : option Z) (t1 f1 t2 f2 : Z),
    In (t1, f1) P -> In (t2, f2) P ->
    1 <= t2 - t1 <= 200 ->
    (List.length (filter (in_target_zone t1) P) < 15)%nat ->
    In (hash_value f1 f2 (t2 - t1), t1, sid) (generate_hashes P sid).
Proof.
  intros P sid t1 f1 t2 f2 Hp Hq Hz Hfew.
  unfold generate_hashes. rewrite anchor_loop_pairs.
  apply in_map_iff. exists ((t1, f1), (t2, f2)). split; [reflexivity|].
  apply sorted_by_time_In in Hp. apply sorted_by_time_In in Hq.
  destruct (in_split _ _ Hp) as (l1 & l2 & E).
  pose proof (sorted_by_time_sorted P) as Hs. rewrite E in Hs, Hq.
  destruct (sorted_split _ _ _ Hs) as [Hbefore Hs2].
  assert (Hq2 : In (t2, f2) l2).
  { apply in_app_or in Hq. destruct Hq as [Hq|[Hq|Hq]]; [| |exact Hq].
    - specialize (Hbefore _ Hq). cbn in Hbefore. lia.
    - injection Hq as Ht _. lia. }
  rewrite E. apply anchor_target_pairs_suffix. cbn [anchor_target_pairs].
  apply in_or_app. left.
  apply in_map_iff. exists (t2, f2, t2 - t1). split; [reflexivity|].
  apply (scan_targets_complete t1 l2 Hs2 [] (t2, f2)); [|exact Hq2|].
  - cbn [List.length plus].
    apply Nat.le_lt_trans with
      (List.length (filter (in_target_zone t1) P)); [|exact Hfew].
    rewrite (Permutation_length
               (filter_perm (in_target_zone t1) _ _ (sorted_by_time_perm P))).
    rewrite E, filter_app, length_app. cbn [filter].
    destruct (in_target_zone t1 (t1, f1)); cbn [List.length]; lia.
  - apply in_target_zone_spec. cbn. lia.
Qed.

Lemma generate_hashes_complete_witness :
  In (hash_value 5 7 1, 0, None)
     (generate_hashes [(1, 7); (0, 5); (300, 2)] None).
Proof.
  apply (generate_hashes_complete [(1, 7); (0, 5); (300, 2)] None 0 5 1 7).
  - right. left. reflexivity.
  - left. reflexivity.
  - lia.
  - vm_compute. lia.
Defined.

(** *** The text that is hashed *)

Lemma split_bar_app (a b : string) :
  has_bar a = false -> split_bar (a ++ String "|" b) = (a, b).
Proof.
  induction a as [|c a IH]; cbn; [reflexivity|].
  destruct (Ascii.eqb c "|"); [discriminate|]. cbn.
  intros H. rewrite (IH H). reflexivity.
Qed.

Lemma uint_no_bar (d : Decimal.uint) :
  has_bar (NilEmpty.string_of_uint d) = false.
Proof. induction d; cbn; auto. Qed.

Lemma str_no_bar (n : Z) : has_bar (str n) = false.
Proof.
  unfold str. destruct (Z.to_int n) as [d|d]; cbn.
  - destruct d; cbn; auto using uint_no_bar.
  - destruct d; cbn; auto using uint_no_bar.
Qed.

Lemma str_inj (n m : Z) : str n = str m -> n = m.
Proof.
  intros E. unfold str in E.
  assert (Hnn : forall z, Z.to_int z <> Decimal.Pos Decimal.Nil
                          /\ Z.to_int z <> Decimal.Neg Decimal.Nil).
  { intros [|p|p]; cbn; split; try discriminate;
      intros [= H]; apply (DecimalPos.Unsigned.to_uint_nonnil p H). }
  assert (Hi : forall z, NilZero.int_of_string
                           (NilZero.string_of_int (Z.to_int z))
                         = Some (Z.to_int z)).
  { intros z. apply NilZero.isi; apply Hnn. }
  pose proof (Hi n) as Hn. rewrite E, Hi in Hn. injection Hn as Hn.
  rewrite <- (DecimalZ.of_to n).
  rewrite <- (DecimalZ.of_to m). f_equal. auto.
Qed.

(** X4: the text [f1|f2|delta_t] that is hashed determines the three
    numbers, so two pairs get the same token by the text only when they
    agree on both frequencies and on the time difference. *)
Theorem hash_input_injective :
  forall f1 f2 d f1' f2' d' : Z,
    hash_input f1 f2 d = hash_input f1' f2' d' ->
    f1 = f1' /\ f2 = f2' /\ d = d'.
Proof.
  intros f1 f2 d f1' f2' d' E. unfold hash_input in E.
  change ((str f1 ++ String "|" (str f2 ++ String "|" (str d)))%string
          = (str f1' ++ String "|" (str f2' ++ String "|" (str d')))%string)
    in E.
  assert (E1 := f_equal split_bar E).
  rewrite !split_bar_app in E1 by apply str_no_bar.
  injection E1 as Ef1 E2.
  assert (E3 := f_equal split_bar E2).
  rewrite !split_bar_app in E3 by apply str_no_bar.
  injection E3 as Ef2 Ed.
  auto using str_inj.
Qed.

Lemma hash_input_injective_witness :
  12 = 12 /\ -3 = -3 /\ 200 = 200.
Proof.
  apply (hash_input_injective 12 (-3) 200 12 (-3) 200). reflexivity.
Defined.

End FingerprintMore.

(** ** More on the store *)
Module DatabaseMore.

Import Fingerprint Database DatabaseFacts.

(** *** Lookup *)

Lemma find_song_None (rows : list song_row) (id : Z) :
  find (fun '(id', _) => id' =? id) rows = None <-> ~ In id (map fst rows).
Proof.
  induction rows as [|[id' n] rows IH]; cbn; [tauto|].
  destruct (Z.eqb_spec id' id) as [->|Hne].
  - split; [discriminate|]. intros H. exfalso. apply H. left. reflexivity.
  - rewrite IH. tauto.
Qed.

Lemma find_song_In (rows : list song_row) (id : Z) (name : string) :
  NoDup (map fst rows) ->
  (find (fun '(id', _) => id' =? id) rows = Some (id, name)
   <-> In (id, name) rows).
Proof.
  induction rows as [|[id' n] rows IH]; cbn; intros Hnd.
  - split; [discriminate|intros []].
  - inversion Hnd as [|? ? Hnin Hnd']; subst.
    destruct (Z.eqb_spec id' id) as [->|Hne].
    + split; [intros [= ->]; left; reflexivity|].
      intros [[= ->]|Hin]; [reflexivity|].
      exfalso. apply Hnin. apply (in_map fst _ _ Hin).
    + rewrite (IH Hnd'). split; [auto|].
      intros [[= E _]|Hin]; [contradiction|exact Hin].
Qed.

Lemma get_song_find (db : FingerprintDatabase) (id : Z) (name : string) :
  get_song db id = Some name
  <-> find (fun '(id', _) => id' =? id) (songs db) = Some (id, name).
Proof.
  unfold get_song.
  destruct (find (fun '(id', _) => id' =? id) (songs db)) as [[id' n]|] eqn:E.
  - apply find_some in E. destruct E as [_ E]. apply Z.eqb_eq in E. subst id'.
    split; intros [= ->]; reflexivity.
  - split; discriminate.
Qed.

Lemma get_song_None_iff (db : FingerprintDatabase) (id : Z) :
  get_song db id = None <-> ~ In id (map fst (songs db)).
Proof.
  rewrite <- find_song_None. unfold get_song.
  destruct (find (fun '(id', _) => id' =? id) (songs db)) as [[id' n]|];
    split; congruence.
Qed.

Lemma get_song_Some_iff (db : FingerprintDatabase) (id : Z) (name : string) :
  primary_key db ->
  (get_song db id = Some name <-> In (id, name) (songs db)).
Proof.
  intros Hpk. rewrite get_song_find. apply find_song_In, Hpk.
Qed.

(** X6: for an id that is a 64-bit integer, so that the call returns,
    [get_song] returns [None] exactly when no row of [songs] carries
    the id, and on a table with unique ids it returns [name] exactly
    for the ids of the rows [(id, name)]. *)
Theorem get_song_lookup :
  forall (db : FingerprintDatabase) (id : Z),
    binds id = true ->
    (get_song db id = None <-> ~ In id (map fst (songs db)))
    /\ (primary_key db ->
        forall name, get_song db id = Some name <-> In (id, name) (songs db)).
Proof.
  intros db id _. split.
  - apply get_song_None_iff.
  - intros Hpk name. apply get_song_Some_iff, Hpk.
Qed.

Lemma get_song_lookup_witness :
  let db := fst (insert_song (fst (insert_song init_db "one" [])) "two" []) in
  get_song db 2 = Some "two"%string <-> In (2, "two"%string) (songs db).
Proof.
  intros db. apply (proj2 (get_song_lookup db 2 eq_refl)).
  apply (built_schema_ok db). repeat constructor.
Defined.

(** *** What an insert leaves alone *)

Lemma find_song_app_other (rows : list song_row) (id id' : Z)
  (name : string) :
  id' <> id ->
  find (fun '(i, _) => i =? id') (rows ++ [(id, name)])
  = find (fun '(i, _) => i =? id') rows.
Proof.
  intros Hne. induction rows as [|[i n] rows IH]; cbn.
  - destruct (Z.eqb_spec id id'); [congruence|reflexivity].
  - destruct (i =? id'); [reflexivity|exact IH].
Qed.

Lemma hits_of_song_app (id : Z) (m1 m2 : list hit) :
  hits_of_song id (m1 ++ m2) = hits_of_song id m1 ++ hits_of_song id m2.
Proof. apply filter_app. Qed.

Lemma entry_hits_new_song_only (hashes : list hash_tuple) (h : string)
  (tq id id' : Z) :
  id' <> id ->
  hits_of_song id'
    (entry_hits (map (fun '(h', t, _) => (h', id, t)) hashes) h tq) = [].
Proof.
  intros Hne. apply entry_hits_other_song.
  intros h' sid t Hin. apply in_map_iff in Hin.
  destruct Hin as ([[h0 t0] x] & [= _ <- _] & _). auto.
Qed.

(** X7: an insert changes nothing for the other songs: for every id
    but the new one, [get_song] answers as before, and a probe returns
    the same hits of that song, in the same order. *)
Theorem insert_song_keeps_others :
  forall (db : FingerprintDatabase) (name : string)
         (hs q : list hash_tuple) (id' : Z),
    id' <> next_id db ->
    let db' := fst (insert_song db name hs) in
    get_song db' id' = get_song db id'
    /\ hits_of_song id' (query db' q) = hits_of_song id' (query db q).
Proof.
  intros db name hs q id' Hne db'. split.
  - unfold get_song. subst db'. cbn [insert_song fst songs].
    rewrite find_song_app_other by exact Hne. reflexivity.
  - induction q as [|[[h tq] x] q IH]; [reflexivity|].
    rewrite (query_cons db'), (query_cons db), !hits_of_song_app, IH.
    f_equal. rewrite !query_entry. subst db'.
    cbn [insert_song fst fingerprints].
    rewrite entry_hits_app, hits_of_song_app.
    rewrite entry_hits_new_song_only by exact Hne. apply app_nil_r.
Qed.

Lemma insert_song_keeps_others_witness :
  let db := fst (insert_song init_db "one" [("aa"%string, 3, None)]) in
  let db' := fst (insert_song db "two" [("aa"%string, 8, None)]) in
  get_song db' 1 = get_song db 1
  /\ hits_of_song 1 (query db' [("aa"%string, 0, None)])
     = hits_of_song 1 (query db [("aa"%string, 0, None)]).
Proof.
  intros db db'.
  apply (insert_song_keeps_others db "two" [("aa"%string, 8, None)]
           [("aa"%string, 0, None)] 1).
  vm_compute. discriminate.
Defined.

(** *** The ids of a database built by the program *)

Lemma fold_max_bound (l : list Z) (z : Z) :
  Forall (fun x => x <= z) l -> fold_right Z.max z l = z.
Proof.
  induction 1 as [|x l Hx _ IH]; cbn; [reflexivity|]. rewrite IH. lia.
Qed.

Lemma built_ids (db : FingerprintDatabase) :
  built db ->
  map fst (songs db) = map Z.of_nat (List.seq 1 (List.length (songs db)))
  /\ seq db = Z.of_nat (List.length (songs db)).
Proof.
  induction 1 as [|db name hs Hb [IHids IHseq]]; [split; reflexivity|].
  assert (Hlast : last_id db = Z.of_nat (List.length (songs db))).
  { unfold last_id. rewrite IHseq. apply fold_max_bound.
    rewrite IHids. apply Forall_forall. intros x Hx.
    apply in_map_iff in Hx. destruct Hx as (n & <- & Hn).
    apply in_seq in Hn. lia. }
  cbn [insert_song fst songs seq]. unfold next_id. rewrite Hlast.
  unfold song_row in *. rewrite map_app, length_app, IHids. cbn [map fst List.length].
  rewrite Nat.add_1_r, seq_S, map_app. cbn [map].
  split; [|lia]. do 2 f_equal. lia.
Qed.

(** X8: in a database built from a new file by inserts, the songs
    carry the ids 1, 2, ..., n in table order, and the next insert
    returns n + 1. *)
Theorem built_ids_dense :
  forall db : FingerprintDatabase,
    built db ->
    map fst (songs db) = map Z.of_nat (List.seq 1 (List.length (songs db)))
    /\ forall name hs, snd (insert_song db name hs) = song_count db + 1.
Proof.
  intros db Hb. destruct (built_ids db Hb) as [Hids Hseq].
  split; [exact Hids|]. intros name hs. cbn.
  unfold next_id, last_id, song_count. rewrite Hseq.
  rewrite fold_max_bound; [reflexivity|].
  rewrite Hids. apply Forall_forall. intros x Hx.
  apply in_map_iff in Hx. destruct Hx as (n & <- & Hn).
  apply in_seq in Hn. lia.
Qed.

Lemma built_ids_dense_witness :
  let db := fst (insert_song (fst (insert_song init_db "one" [])) "two" []) in
  map fst (songs db) = [1; 2]
  /\ forall name hs, snd (insert_song db name hs) = song_count db + 1.
Proof.
  intros db. apply (built_ids_dense db). repeat constructor.
Defined.

(** An insert adds one row to [songs] and one row to [fingerprints]
    per input tuple, repeated tuples included. *)
Lemma insert_song_counts :
  forall (db : FingerprintDatabase) (name : string) (hs : list hash_tuple),
    let db' := fst (insert_song db name hs) in
    song_count db' = song_count db + 1
    /\ fingerprint_count db'
       = fingerprint_count db + Z.of_nat (List.length hs).
Proof.
  intros db name hs db'. subst db'. unfold song_count, fingerprint_count.
  cbn [insert_song fst songs fingerprints].
  rewrite !length_app, length_map. cbn [List.length].
  rewrite !Nat2Z.inj_add. split; reflexivity.
Qed.

(** *** The probe *)

Lemma entry_hits_In (rows : list fingerprint_row) (h : string)
  (tq sid tdb tq' : Z) :
  In (sid, tdb, tq') (entry_hits rows h tq)
  <-> tq' = tq /\ In (h, sid, tdb) rows.
Proof.
  unfold entry_hits. rewrite map_map, in_map_iff. split.
  - intros ([[h' s] t] & [= <- <- <-] & Hin). apply filter_In in Hin.
    destruct Hin as [Hin E]. apply String.eqb_eq in E. subst h'. auto.
  - intros [-> Hin]. exists (h, sid, tdb). split; [reflexivity|].
    apply filter_In. split; [exact Hin|apply String.eqb_refl].
Qed.

Lemma query_In (db : FingerprintDatabase) (q : list hash_tuple)
  (sid tdb tq : Z) :
  In (sid, tdb, tq) (query db q)
  <-> exists h x, In (h, tq, x) q /\ In (h, sid, tdb) (fingerprints db).
Proof.
  rewrite query_flat, in_flat_map. split.
  - intros ([[h tq'] x] & Hq & Hin). rewrite query_entry in Hin.
    apply entry_hits_In in Hin. destruct Hin as [-> Hin]. eauto.
  - intros (h & x & Hq & Hin). exists (h, tq, x). split; [exact Hq|].
    rewrite query_entry. apply entry_hits_In. auto.
Qed.

Lemma query_app (db : FingerprintDatabase) (q1 q2 : list hash_tuple) :
  query db (q1 ++ q2) = query db q1 ++ query db q2.
Proof. unfold query. apply flat_map_app. Qed.

Lemma entry_hits_length (rows : list fingerprint_row) (h : string) (tq : Z) :
  List.length (entry_hits rows h tq)
  = List.length (filter (fun '(h', _, _) => String.eqb h' h) rows).
Proof. unfold entry_hits. rewrite !length_map. reflexivity. Qed.

(** X10: a probe returns a hit [(song_id, t_db, t_query)] exactly when
    some query tuple with time [t_query] and some stored row with
    [song_id] and [t_db] carry the same hash string; the hits of a
    query come tuple by tuple in the order of the query; and a query
    tuple gets one hit per stored row with its hash. *)
Theorem query_hits :
  forall (db : FingerprintDatabase) (q : list hash_tuple),
    (forall sid tdb tq,
        In (sid, tdb, tq) (query db q)
        <-> exists h x,
              In (h, tq, x) q /\ In (h, sid, tdb) (fingerprints db))
    /\ (forall q', query db (q ++ q') = query db q ++ query db q')
    /\ (forall h tq x,
           List.length (query db [(h, tq, x)])
           = List.length
               (filter (fun '(h', _, _) => String.eqb h' h)
                       (fingerprints db))).
Proof.
  intros db q. split; [|split].
  - intros sid tdb tq. apply query_In.
  - intros q'. apply query_app.
  - intros h tq x. rewrite query_entry. apply entry_hits_length.
Qed.

(** *** The listing *)

Lemma insert_by_id_perm (r : song_row) (l : list song_row) :
  Permutation (r :: l) (insert_by_id r l).
Proof.
  induction l as [|r' l IH]; cbn; [apply Permutation_refl|].
  destruct (fst r <=? fst r'); [apply Permutation_refl|].
  eapply perm_trans; [apply perm_swap|apply perm_skip, IH].
Qed.

Lemma list_songs_perm (db : FingerprintDatabase) :
  Permutation (songs db) (list_songs db).
Proof.
  unfold list_songs. induction (songs db) as [|r l IH]; cbn; [constructor|].
  eapply perm_trans; [apply perm_skip, IH|apply insert_by_id_perm].
Qed.

Lemma insert_by_id_sorted (r : song_row) (l : list song_row) :
  StronglySorted by_id l -> StronglySorted by_id (insert_by_id r l).
Proof.
  induction 1 as [|r' l Hs IH Hr]; cbn; [repeat constructor|].
  destruct (Z.leb_spec (fst r) (fst r')) as [E|E].
  - constructor; [constructor; assumption|].
    constructor; [exact E|].
    rewrite Forall_forall in *. intros x Hx. specialize (Hr x Hx).
    unfold by_id in *. lia.
  - constructor; [exact IH|].
    rewrite Forall_forall in *. intros x Hx.
    apply (Permutation_in _ (Permutation_sym (insert_by_id_perm r l))) in Hx.
    destruct Hx as [<-|Hx]; [unfold by_id; lia|auto].
Qed.

Lemma insert_by_id_last (r : song_row) (l : list song_row) :
  Forall (fun x => fst x < fst r) l -> insert_by_id r l = l ++ [r].
Proof.
  induction 1 as [|r' l Hr _ IH]; cbn; [reflexivity|].
  destruct (Z.leb_spec (fst r) (fst r')); [lia|]. rewrite IH. reflexivity.
Qed.

Lemma list_songs_sorted_input (l : list song_row) :
  StronglySorted (fun a b : song_row => fst a < fst b) l ->
  fold_right insert_by_id [] l = l.
Proof.
  induction 1 as [|r l Hs IH Hr]; [reflexivity|].
  cbn. rewrite IH. destruct l as [|r' l]; [reflexivity|].
  cbn. inversion Hr; subst.
  destruct (Z.leb_spec (fst r) (fst r')); [reflexivity|lia].
Qed.

(** X11: [list_songs] returns the rows of [songs] in ascending id; on
    a table with unique ids it lists [(id, name)] exactly when
    [get_song(id)] is [name]; and for a database built by the program
    it is the table in insertion order. *)
Theorem list_songs_sorted :
  forall db : FingerprintDatabase,
    Permutation (songs db) (list_songs db)
    /\ StronglySorted by_id (list_songs db)
    /\ (primary_key db ->
        forall id name,
          In (id, name) (list_songs db) <-> get_song db id = Some name)
    /\ (built db -> list_songs db = songs db).
Proof.
  intros db. split; [apply list_songs_perm|]. split; [|split].
  - unfold list_songs. induction (songs db) as [|r l IH]; cbn;
      [constructor|apply insert_by_id_sorted, IH].
  - intros Hpk id name.
    rewrite (get_song_Some_iff db id name Hpk). split.
    + apply Permutation_in, Permutation_sym, list_songs_perm.
    + apply Permutation_in, list_songs_perm.
  - intros Hb. destruct (built_ids db Hb) as [Hids _].
    unfold list_songs. apply list_songs_sorted_input.
    revert Hids. generalize 1%nat as start.
    induction (songs db) as [|r l IH]; intros start Hids; [constructor|].
    cbn in Hids. injection Hids as Hr Hl.
    constructor; [apply (IH (S start)), Hl|].
    apply Forall_forall. intros x Hx.
    apply (in_map fst) in Hx. rewrite Hl in Hx.
    apply in_map_iff in Hx. destruct Hx as (n & <- & Hn).
    apply in_seq in Hn. lia.
Qed.

Lemma list_songs_sorted_witness :
  let db := fst (insert_song (fst (insert_song init_db "one" [])) "two" []) in
  list_songs db = [(1, "one"%string); (2, "two"%string)].
Proof.
  intros db. apply (proj2 (proj2 (proj2 (list_songs_sorted db)))).
  repeat constructor.
Defined.

(** *** The schema as an invariant *)

(** X9: a new database meets its schema, an insert keeps it, so every
    database built by the program has unique song ids and no
    fingerprint row without its song; and the id an insert hands out is
    greater than every id in the table. *)
Theorem schema_invariant :
  schema_ok init_db
  /\ (forall db name hs,
         schema_ok db -> schema_ok (fst (insert_song db name hs)))
  /\ (forall db, built db -> schema_ok db)
  /\ (forall db name hs id,
         In id (map fst (songs db)) -> id < snd (insert_song db name hs)).
Proof.
  split; [|split; [|split]].
  - split; [constructor|intros h sid t []].
  - intros db name hs. apply insert_song_schema_ok.
  - intros db Hb. induction Hb as [|db name hs _ IH].
    + split; [constructor|intros h sid t []].
    + apply insert_song_schema_ok, IH.
  - intros db name hs id Hin. apply song_id_le_last in Hin.
    cbn [insert_song snd]. unfold next_id. lia.
Qed.

Lemma schema_invariant_witness :
  schema_ok (fst (insert_song init_db "one" [("aa"%string, 3, None)]))
  /\ 1 < snd (insert_song
                (fst (insert_song init_db "one" [("aa"%string, 3, None)]))
                "two" []).
Proof.
  destruct schema_invariant as (Hinit & Hstep & _ & Hfresh).
  split.
  - apply Hstep, Hinit.
  - apply Hfresh. left. reflexivity.
Defined.

End DatabaseMore.

(** ** More on the matcher *)
Module MatcherMore.

Import Fingerprint Database Matcher DatabaseFacts MatcherFacts.

(** *** Queries that cannot match *)

Lemma query_no_common_hash (db : FingerprintDatabase) (q : list hash_tuple) :
  (forall h tq x sid t, In (h, tq, x) q -> ~ In (h, sid, t) (fingerprints db))
  -> query db q = [].
Proof.
  intros Hno. destruct (query db q) as [|[[sid tdb] tq] m] eqn:E;
    [reflexivity|].
  assert (I : In (sid, tdb, tq) (query db q)) by (rewrite E; left; reflexivity).
  apply DatabaseMore.query_In in I. destruct I as (h & x & Hq & Hr).
  exfalso. apply (Hno h tq x sid tdb Hq Hr).
Qed.

(** X12: a query none of whose hash strings is stored gets [None]; in
    particular every query against a new, empty database does. *)
Theorem find_matches_foreign :
  forall (db : FingerprintDatabase) (q : list hash_tuple),
    ((forall h tq x sid t,
         In (h, tq, x) q -> ~ In (h, sid, t) (fingerprints db)) ->
     find_matches q db = Return None)
    /\ find_matches q init_db = Return None.
Proof.
  intros db q.
  assert (H : forall d, query d q = [] -> find_matches q d = Return None).
  { intros d E. unfold find_matches. destruct q; [reflexivity|].
    rewrite E. reflexivity. }
  split.
  - intros Hno. apply H, query_no_common_hash, Hno.
  - apply H, query_no_common_hash. intros h tq x sid t _ [].
Qed.

Lemma find_matches_foreign_witness :
  let hs := repeat ("aa"%string, 0, @None Z) 6 in
  let db := fst (insert_song init_db "tune" hs) in
  find_matches (repeat ("bb"%string, 0, @None Z) 6) db = Return None.
Proof.
  intros hs db.
  apply (proj1 (find_matches_foreign db (repeat ("bb"%string, 0, None) 6))).
  intros h tq x sid t Hq Hr. cbn in Hq, Hr.
  repeat (destruct Hq as [Hq|Hq]; [injection Hq as <- _ _|]);
    try destruct Hq;
    repeat (destruct Hr as [Hr|Hr]; [discriminate Hr|]); destruct Hr.
Defined.

(** X15: against a table without repeated rows, a query of fewer
    than five tuples gets [None]. *)
Theorem find_matches_short_query :
  forall (db : FingerprintDatabase) (q : list hash_tuple),
    NoDup (fingerprints db) ->
    (List.length q < 5)%nat ->
    find_matches q db = Return None.
Proof.
  intros db q Hnd Hlen. unfold find_matches.
  destruct q as [|e q]; [reflexivity|].
  rewrite find_matches_from_votes.
  destruct (first_best_key (query db (e :: q))); [|reflexivity].
  pose proof (best_votes_query_le db (e :: q) Hnd) as Hle.
  destruct (Z.ltb_spec (best_votes (query db (e :: q))) MIN_MATCHES);
    [reflexivity|]. unfold MIN_MATCHES in *. lia.
Qed.

Lemma find_matches_short_query_witness :
  let hs := [("aa"%string, 0, None); ("bb"%string, 1, None);
             ("cc"%string, 2, None); ("dd"%string, 3, @None Z)] in
  find_matches hs (fst (insert_song init_db "tune" hs)) = Return None.
Proof.
  intros hs. apply find_matches_short_query.
  - cbn. repeat constructor; cbn; intuition discriminate.
  - cbn. lia.
Defined.

(** *** What a result says *)

Lemma votes_le_length (k : key) (m : list hit) :
  votes k m <= Z.of_nat (List.length m).
Proof.
  unfold votes. apply Nat2Z.inj_le, filter_length_le.
Qed.

(** X13: a result returned by [find_matches] has at least
    [MIN_MATCHES] aligned matches and no more than the probe has hits;
    its song has a stored row whose hash is one of the query's; and in
    a database that meets its schema its [song_name] is the name of a
    row of [songs], never [None]. *)
Theorem find_matches_result_sound :
  forall (db : FingerprintDatabase) (q : list hash_tuple) (r : MatchResult),
    find_matches q db = Return (Some r) ->
    MIN_MATCHES <= aligned_matches r <= Z.of_nat (List.length (query db q))
    /\ (exists h tq x tdb,
           In (h, tq, x) q /\ In (h, song_id r, tdb) (fingerprints db))
    /\ (schema_ok db ->
        exists name, song_name r = Some name
                     /\ In (song_id r, name) (songs db)).
Proof.
  intros db q r Hr. unfold find_matches in Hr.
  destruct q as [|e q]; [discriminate|].
  rewrite find_matches_from_votes in Hr.
  remember (query db (e :: q)) as m eqn:Em.
  destruct (first_best_key m) as [k|] eqn:Hk; [|discriminate].
  destruct (Z.ltb_spec (best_votes m) MIN_MATCHES)
    as [Hlt|Hge]; [discriminate|].
  injection Hr as <-. cbn [aligned_matches song_id song_name].
  destruct (first_best_key_votes _ _ Hk) as [Hin Hv].
  apply in_map_iff in Hin. destruct Hin as ([[sid tdb] tq] & Ek & Hhit).
  assert (Hsid : fst k = sid) by (rewrite <- Ek; reflexivity).
  rewrite Em in Hhit.
  apply DatabaseMore.query_In in Hhit. destruct Hhit as (h & x & Hq & Hrow).
  split; [|split].
  - split; [exact Hge|]. rewrite <- Hv. apply votes_le_length.
  - exists h, tq, x, tdb. rewrite Hsid. auto.
  - intros [Hpk Hfk]. rewrite Hsid.
    destruct (get_song db sid) as [name|] eqn:Eg.
    + exists name. split; [reflexivity|].
      apply (DatabaseMore.get_song_Some_iff db sid name Hpk), Eg.
    + exfalso. apply (DatabaseMore.get_song_None_iff db sid) in Eg.
      apply Eg. apply (Hfk h sid tdb Hrow).
Qed.

Lemma find_matches_result_sound_witness :
  let hs := [("aa"%string, 0, None); ("bb"%string, 1, None);
             ("cc"%string, 2, None); ("dd"%string, 3, None);
             ("ee"%string, 4, @None Z)] in
  let db := fst (insert_song init_db "tune" hs) in
  MIN_MATCHES <= 5 <= Z.of_nat (List.length (query db hs)).
Proof.
  intros hs db.
  apply (find_matches_result_sound db hs
           {| song_id := 1; song_name := Some "tune"%string;
              confidence := (5 / 5)%Q; aligned_matches := 5 |}).
  vm_compute. reflexivity.
Defined.

(** *** A song identifies itself *)

Lemma find_matches_votes (q : list hash_tuple) (db : FingerprintDatabase) :
  q <> [] ->
  find_matches q db
  = match first_best_key (query db q) with
    | None => Return None
    | Some k =>
        if best_votes (query db q) <? MIN_MATCHES then Return None
        else
          Return (Some {| song_id := fst k;
                          song_name := get_song db (fst k);
                          confidence :=
                            (inject_Z (best_votes (query db q))
                             / inject_Z (Z.of_nat (List.length q)))%Q;
                          aligned_matches := best_votes (query db q) |})
    end.
Proof.
  intros Hq. unfold find_matches. destruct q as [|e q]; [congruence|].
  apply find_matches_from_votes.
Qed.

Lemma votes_own_song (db : FingerprintDatabase) (name : string)
  (hs : list hash_tuple) :
  forall q : list hash_tuple,
    incl q hs ->
    Z.of_nat (List.length q)
    <= votes (next_id db, 0) (query (fst (insert_song db name hs)) q).
Proof.
  induction q as [|[[h t] x] q IH]; intros Hincl; [cbn; lia|].
  rewrite query_cons, votes_app, query_entry.
  assert (Hq : incl q hs) by (intros y Hy; apply Hincl; right; exact Hy).
  specialize (IH Hq).
  assert (Hhit : In (next_id db, t, t)
                    (entry_hits (fingerprints (fst (insert_song db name hs)))
                                h t)).
  { apply DatabaseMore.entry_hits_In. split; [reflexivity|].
    cbn [insert_song fst fingerprints]. apply in_or_app. right.
    apply in_map_iff. exists (h, t, x). split; [reflexivity|].
    apply Hincl. left. reflexivity. }
  apply votes_pos_In in Hhit. cbn [hit_key] in Hhit.
  rewrite Z.sub_diag in Hhit. cbn [List.length].
  rewrite Nat2Z.inj_succ. lia.
Qed.

Lemma own_song_best_votes (db : FingerprintDatabase) (name : string)
  (hs q : list hash_tuple) :
  incl q hs -> q <> [] ->
  Z.of_nat (List.length q)
  <= best_votes (query (fst (insert_song db name hs)) q).
Proof.
  intros Hincl Hne.
  pose proof (votes_own_song db name hs q Hincl) as Hv.
  destruct q as [|[[h0 t0] x0] q0] eqn:Eq; [congruence|]. rewrite <- Eq in *.
  assert (Hin0 : In (h0, t0, x0) q) by (rewrite Eq; left; reflexivity).
  assert (Hhit0 : In (next_id db, t0, t0)
                     (query (fst (insert_song db name hs)) q)).
  { apply DatabaseMore.query_In. exists h0, x0. split; [exact Hin0|].
    cbn [insert_song fst fingerprints].
    apply in_or_app. right. apply in_map_iff. exists (h0, t0, x0).
    split; [reflexivity|apply Hincl, Hin0]. }
  pose proof (best_votes_ge _ _ Hhit0) as Hb. cbn [hit_key] in Hb.
  rewrite Z.sub_diag in Hb. lia.
Qed.

Lemma single_song_key (db : FingerprintDatabase) (name : string)
  (hs q : list hash_tuple) (k : key) :
  fingerprints db = [] ->
  first_best_key (query (fst (insert_song db name hs)) q) = Some k ->
  fst k = next_id db.
Proof.
  intros Hempty Hk.
  destruct (first_best_key_votes _ _ Hk) as [Hin _].
  apply in_map_iff in Hin. destruct Hin as ([[sid tdb] tq] & Ek & Hm).
  apply DatabaseMore.query_In in Hm. destruct Hm as (h & x & _ & Hrow).
  cbn [insert_song fst fingerprints] in Hrow.
  rewrite Hempty in Hrow. cbn [app] in Hrow.
  apply in_map_iff in Hrow. destruct Hrow as ([[h' t'] x'] & [= _ Es _] & _).
  rewrite <- Ek, <- Es. reflexivity.
Qed.

Lemma find_matches_enough_votes (q : list hash_tuple)
  (db : FingerprintDatabase) :
  q <> [] -> MIN_MATCHES <= best_votes (query db q) ->
  exists k,
    first_best_key (query db q) = Some k
    /\ find_matches q db
       = Return (Some {| song_id := fst k;
                         song_name := get_song db (fst k);
                         confidence :=
                           (inject_Z (best_votes (query db q))
                            / inject_Z (Z.of_nat (List.length q)))%Q;
                         aligned_matches := best_votes (query db q) |}).
Proof.
  intros Hne Hmin. rewrite find_matches_votes by exact Hne.
  destruct (first_best_key (query db q)) as [k|] eqn:Hk.
  - exists k. split; [reflexivity|].
    destruct (Z.ltb_spec (best_votes (query db q)) MIN_MATCHES);
      [lia|reflexivity].
  - apply first_best_key_None in Hk. rewrite Hk in Hmin.
    unfold MIN_MATCHES in Hmin. cbn in Hmin. lia.
Qed.

Lemma confidence_ge_1 (b n : Z) :
  n <= b -> 0 < n -> (1 <= inject_Z b / inject_Z n)%Q.
Proof.
  intros Hb Hn. apply Qle_shift_div_l; [apply inject_Z_pos, Hn|].
  rewrite Qmult_1_l, <- Zle_Qle. exact Hb.
Qed.

(** X14: after the insert of a hash list as a song has returned (the
    new id and the time offsets are 64-bit integers), a query of at
    least five tuples that all belong to that list (the whole list, or a
    part of it) is matched: [find_matches] returns a result with at
    least as many aligned matches as the query has tuples, so with
    confidence at least 1; when the database held no fingerprint before,
    the result names the song just inserted. *)
Theorem find_matches_self :
  forall (db : FingerprintDatabase) (name : string)
         (hs q : list hash_tuple),
    insert_commits db hs = true ->
    incl q hs ->
    (5 <= List.length q)%nat ->
    let db' := fst (insert_song db name hs) in
    let id := snd (insert_song db name hs) in
    exists r : MatchResult,
      find_matches q db' = Return (Some r)
      /\ Z.of_nat (List.length q) <= aligned_matches r
      /\ (1 <= confidence r)%Q
      /\ (fingerprints db = [] ->
          song_id r = id /\ song_name r = Some name).
Proof.
  intros db name hs q _ Hincl Hlen db' id.
  assert (Hne : q <> []) by (intros ->; cbn in Hlen; lia).
  pose proof (own_song_best_votes db name hs q Hincl Hne) as Hb.
  fold db' in Hb.
  destruct (find_matches_enough_votes q db' Hne) as (k & Hk & ->);
    [unfold MIN_MATCHES; lia|].
  eexists. split; [reflexivity|].
  cbn [aligned_matches confidence song_id song_name].
  split; [exact Hb|]. split.
  - apply confidence_ge_1; [exact Hb|lia].
  - intros Hempty.
    rewrite (single_song_key db name hs q k Hempty Hk).
    split; [reflexivity|apply (get_song_insert db name hs)].
Qed.

Lemma find_matches_self_witness :
  let hs := [("aa"%string, 0, None); ("bb"%string, 1, None);
             ("cc"%string, 2, None); ("dd"%string, 3, None);
             ("ee"%string, 4, None); ("ff"%string, 5, @None Z)] in
  let q := tl hs in
  exists r : MatchResult,
    find_matches q (fst (insert_song init_db "tune" hs)) = Return (Some r)
    /\ Z.of_nat (List.length q) <= aligned_matches r
    /\ (1 <= confidence r)%Q
    /\ (fingerprints init_db = [] ->
        song_id r = snd (insert_song init_db "tune" hs)
        /\ song_name r = Some "tune"%string).
Proof.
  intros hs q. apply (find_matches_self init_db "tune" hs q).
  - reflexivity.
  - intros x Hx. right. exact Hx.
  - cbn. lia.
Defined.

(** *** A query moved in time *)

Lemma query_shift (db : FingerprintDatabase) (c : Z) (q : list hash_tuple) :
  query db (map (shift_tuple c) q) = map (shift_hit c) (query db q).
Proof.
  induction q as [|[[h t] x] q IH]; [reflexivity|].
  cbn [map shift_tuple].
  rewrite (query_cons db (h, t + c, x)), (query_cons db (h, t, x)).
  rewrite IH, map_app, !query_entry.
  f_equal. unfold entry_hits. rewrite !map_map. apply map_ext.
  intros [[h' s] tdb]. reflexivity.
Qed.

Lemma hit_key_shift (c : Z) (m : hit) :
  hit_key (shift_hit c m) = shift_key c (hit_key m).
Proof.
  destruct m as [[s tdb] tq]. unfold shift_key. cbn. f_equal. lia.
Qed.

Lemma shift_key_eqb (c : Z) (k k' : key) :
  key_eqb (shift_key c k) (shift_key c k') = key_eqb k k'.
Proof.
  destruct k as [s d], k' as [s' d']. unfold key_eqb, shift_key. cbn.
  f_equal. destruct (Z.eqb_spec (d - c) (d' - c)), (Z.eqb_spec d d');
    auto; lia.
Qed.

Lemma votes_shift (c : Z) (k : key) (m : list hit) :
  votes (shift_key c k) (map (shift_hit c) m) = votes k m.
Proof.
  induction m as [|x m IH]; [reflexivity|].
  cbn [map]. rewrite !votes_cons, IH, hit_key_shift, shift_key_eqb.
  reflexivity.
Qed.

Lemma best_votes_shift (c : Z) (m : list hit) :
  best_votes (map (shift_hit c) m) = best_votes m.
Proof.
  unfold best_votes. rewrite map_map. f_equal. apply map_ext.
  intros x. rewrite hit_key_shift. apply votes_shift.
Qed.

Lemma find_map {A B : Type} (p : B -> bool) (g : A -> B) (l : list A) :
  find p (map g l) = option_map g (find (fun x => p (g x)) l).
Proof.
  induction l as [|a l IH]; [reflexivity|].
  cbn. destruct (p (g a)); [reflexivity|exact IH].
Qed.

Lemma find_pointwise {A : Type} (p p' : A -> bool) (l : list A) :
  (forall x, p x = p' x) -> find p l = find p' l.
Proof.
  intros E. induction l as [|a l IH]; [reflexivity|].
  cbn. rewrite E, IH. reflexivity.
Qed.

Lemma first_best_key_shift (c : Z) (m : list hit) :
  first_best_key (map (shift_hit c) m)
  = option_map (shift_key c) (first_best_key m).
Proof.
  unfold first_best_key. rewrite find_map, best_votes_shift.
  rewrite (find_pointwise _ (fun x => votes (hit_key x) m =? best_votes m)).
  - destruct (find _ m); [|reflexivity]. cbn. f_equal. apply hit_key_shift.
  - intros x. rewrite hit_key_shift, votes_shift. reflexivity.
Qed.

Lemma find_matches_shift (c : Z) (q : list hash_tuple)
  (db : FingerprintDatabase) :
  find_matches (map (shift_tuple c) q) db = find_matches q db.
Proof.
  destruct q as [|e q]; [reflexivity|].
  rewrite !find_matches_votes by discriminate.
  rewrite query_shift, first_best_key_shift, best_votes_shift, length_map.
  destruct (first_best_key (query db (e :: q))) as [k|]; reflexivity.
Qed.

(** X16: moving every query tuple by the same number of frames does
    not change what [find_matches] returns; hence a peak list moved in
    time is matched to the same song with the same count and
    confidence. *)
Theorem find_matches_time_shift :
  forall (c : Z) (db : FingerprintDatabase),
    (forall q : list hash_tuple,
        find_matches (map (shift_tuple c) q) db = find_matches q db)
    /\ (forall (P : list peak) (sid : option Z),
           find_matches (generate_hashes (map (shift_peak c) P) sid) db
           = find_matches (generate_hashes P sid) db).
Proof.
  intros c db. split.
  - intros q. apply find_matches_shift.
  - intros P sid. rewrite FingerprintMore.generate_hashes_shift.
    apply find_matches_shift.
Qed.

(** X17: the third component of the query tuples plays no part in
    [find_matches]. *)
Theorem find_matches_ignores_song_id :
  forall (q : list hash_tuple) (db : FingerprintDatabase),
    query db (forget_song_ids q) = query db q
    /\ find_matches (forget_song_ids q) db = find_matches q db.
Proof.
  intros q db.
  assert (E : query db (forget_song_ids q) = query db q).
  { unfold query, forget_song_ids.
    induction q as [|[[h t] x] q IH]; [reflexivity|].
    cbn [map flat_map]. rewrite IH. reflexivity. }
  split; [exact E|].
  destruct q as [|e q]; [reflexivity|].
  rewrite !find_matches_votes by (destruct e as [[h t] x]; discriminate).
  rewrite E. unfold forget_song_ids. rewrite !length_map. reflexivity.
Qed.

(** *** A song that shares no hash with the query *)

Lemma entry_hits_no_hash (rows : list fingerprint_row) (h : string)
  (tq : Z) :
  (forall sid t, ~ In (h, sid, t) rows) -> entry_hits rows h tq = [].
Proof.
  intros Hno. destruct (entry_hits rows h tq) as [|[[sid tdb] tq'] l] eqn:E;
    [reflexivity|].
  assert (I : In (sid, tdb, tq') (entry_hits rows h tq))
    by (rewrite E; left; reflexivity).
  apply DatabaseMore.entry_hits_In in I. destruct I as [_ I].
  exfalso. apply (Hno sid tdb I).
Qed.

Lemma query_insert_unrelated (db : FingerprintDatabase) (name : string)
  (hs q : list hash_tuple) :
  (forall h tq x t y, In (h, tq, x) q -> ~ In (h, t, y) hs) ->
  query (fst (insert_song db name hs)) q = query db q.
Proof.
  intros Hno. induction q as [|[[h tq] x] q IH]; [reflexivity|].
  rewrite (query_cons (fst (insert_song db name hs))), (query_cons db), IH.
  - rewrite !query_entry. cbn [insert_song fst fingerprints].
    rewrite entry_hits_app.
    rewrite (entry_hits_no_hash
               (map (fun '(h0, t, _) => (h0, next_id db, t)) hs));
      [rewrite app_nil_r; reflexivity|].
    intros sid t Hin. apply in_map_iff in Hin.
    destruct Hin as ([[h' t'] y] & [= <- _ <-] & Hin).
    apply (Hno h' tq x t' y); [left; reflexivity|exact Hin].
  - intros h' tq' x' t y Hin. apply (Hno h' tq' x'). right. exact Hin.
Qed.

(** X18: in a database that meets its schema, inserting a song that
    shares no hash string with the query does not change what
    [find_matches] returns for that query. *)
Theorem find_matches_unrelated_insert :
  forall (db : FingerprintDatabase) (name : string)
         (hs q : list hash_tuple),
    schema_ok db ->
    (forall h tq x t y, In (h, tq, x) q -> ~ In (h, t, y) hs) ->
    find_matches q (fst (insert_song db name hs)) = find_matches q db.
Proof.
  intros db name hs q [_ Hfk] Hno.
  destruct q as [|e q]; [reflexivity|].
  rewrite !find_matches_votes by discriminate.
  rewrite query_insert_unrelated by exact Hno.
  destruct (first_best_key (query db (e :: q))) as [k|] eqn:Hk;
    [|reflexivity].
  destruct (best_votes (query db (e :: q)) <? MIN_MATCHES); [reflexivity|].
  destruct (first_best_key_votes _ _ Hk) as [Hin _].
  apply in_map_iff in Hin. destruct Hin as ([[sid tdb] tq] & Ek & Hm).
  apply DatabaseMore.query_In in Hm. destruct Hm as (h & x & _ & Hrow).
  assert (Hne : fst k <> next_id db).
  { rewrite <- Ek. cbn. intros E. apply (next_id_fresh db).
    rewrite <- E. apply (Hfk h sid tdb Hrow). }
  assert (Eg : get_song (fst (insert_song db name hs)) (fst k)
               = get_song db (fst k)).
  { unfold get_song. cbn [insert_song fst songs].
    rewrite DatabaseMore.find_song_app_other by exact Hne. reflexivity. }
  rewrite Eg. reflexivity.
Qed.

Lemma find_matches_unrelated_insert_witness :
  let hs := [("aa"%string, 0, None); ("bb"%string, 1, None);
             ("cc"%string, 2, None); ("dd"%string, 3, None);
             ("ee"%string, 4, @None Z)] in
  let db := fst (insert_song init_db "tune" hs) in
  find_matches hs (fst (insert_song db "other" [("zz"%string, 9, None)]))
  = find_matches hs db.
Proof.
  intros hs db. apply find_matches_unrelated_insert.
  - apply built_schema_ok. repeat constructor.
  - intros h tq x t y Hq Hin. cbn in Hq, Hin.
    destruct Hin as [[= <- _ _]|[]].
    repeat (destruct Hq as [Hq|Hq]; [discriminate Hq|]). destruct Hq.
Defined.

End MatcherMore.

(** ** More on the peak picker *)
Module PeaksMore.

Import Peaks PeaksFacts.

Lemma seq_strictly_sorted (len start : nat) :
  StronglySorted lt (seq start len).
Proof.
  revert start. induction len as [|len IH]; intros start; cbn; constructor.
  - apply IH.
  - apply Forall_forall. intros x Hx. apply in_seq in Hx. lia.
Qed.

Lemma StronglySorted_weaken {A : Type} (R R' : A -> A -> Prop)
  (l : list A) :
  (forall x y, R x y -> R' x y) ->
  StronglySorted R l -> StronglySorted R' l.
Proof.
  intros Hw. induction 1 as [|a l _ IH Ha]; constructor; [exact IH|].
  rewrite Forall_forall in *. auto.
Qed.

Lemma cells_row_major (cols : nat) (mask : nat -> nat -> bool) :
  forall len start : nat,
    StronglySorted row_major
      (flat_map
         (fun f => map (fun t => (f, t)) (filter (mask f) (seq 0 cols)))
         (seq start len)).
Proof.
  induction len as [|len IH]; intros start; cbn [seq flat_map].
  - constructor.
  - apply StronglySorted_app.
    + apply StronglySorted_map. unfold row_major. cbn [fst snd].
      apply StronglySorted_filter.
      apply (StronglySorted_weaken lt); [|apply seq_strictly_sorted].
      intros x y Hxy. right. split; [reflexivity|exact Hxy].
    + apply IH.
    + intros x y Hx Hy. apply in_map_iff in Hx.
      destruct Hx as (t & <- & _). apply in_flat_map in Hy.
      destruct Hy as (f & Hf & Hy). apply in_map_iff in Hy.
      destruct Hy as (t' & <- & _). apply in_seq in Hf.
      left. cbn. lia.
Qed.

Lemma cells_length (cols : nat) (mask : nat -> nat -> bool) :
  forall len start : nat,
    (List.length
       (flat_map
          (fun f => map (fun t => (f, t)) (filter (mask f) (seq 0 cols)))
          (seq start len))
     <= len * cols)%nat.
Proof.
  induction len as [|len IH]; intros start; cbn [seq flat_map]; [cbn; lia|].
  rewrite length_app, length_map. specialize (IH (S start)).
  pose proof (filter_length_le (mask start) (seq 0 cols)) as Hf.
  rewrite length_seq in Hf. cbn [Nat.mul]. lia.
Qed.

Lemma strictly_sorted_NoDup (l : list (Z * Z)) :
  StronglySorted freq_then_time l -> NoDup l.
Proof.
  induction 1 as [|a l Hs IH Ha]; constructor; [|exact IH].
  intros Hin. rewrite Forall_forall in Ha. specialize (Ha a Hin).
  unfold freq_then_time in Ha. lia.
Qed.

Lemma find_peaks_in_bounds `{Numeric} (S : ndarray num)
  (amp_min : option num) (t f : Z) :
  In (t, f) (find_peaks S amp_min) ->
  0 <= t < Z.of_nat (ncols S) /\ 0 <= f < Z.of_nat (nrows S).
Proof.
  rewrite find_peaks_cells. cbn zeta. intros Hin.
  apply in_map_iff in Hin. destruct Hin as ([fi ti] & [= <- <-] & Hc).
  apply np_where_cells in Hc. cbn [fst snd]. lia.
Qed.

Lemma find_peaks_length `{Numeric} (S : ndarray num)
  (amp_min : option num) :
  (List.length (find_peaks S amp_min) <= nrows S * ncols S)%nat.
Proof.
  rewrite find_peaks_cells. cbn zeta. rewrite length_map.
  apply cells_length.
Qed.

(** X19: whatever the threshold, [find_peaks] returns [(t, f)] exactly
    for the cells of the array whose value equals the maximum filter
    there and is greater than the threshold; the indices lie inside
    the array, the peaks come row by row (ascending frequency, then
    ascending time), no peak comes twice, and there are no more peaks
    than cells. *)
Theorem find_peaks_exact :
  forall (N : Numeric) (S : ndarray num) (amp_min : option num),
    (forall fi ti : nat,
        In (Z.of_nat ti, Z.of_nat fi) (find_peaks S amp_min)
        <-> (fi < nrows S)%nat /\ (ti < ncols S)%nat
            /\ num_eqb (cell S fi ti)
                       (maximum_filter S NEIGHBORHOOD_SIZE fi ti) = true
            /\ num_gtb (cell S fi ti) (threshold S amp_min) = true)
    /\ (forall t f : Z,
           In (t, f) (find_peaks S amp_min) ->
           0 <= t < Z.of_nat (ncols S) /\ 0 <= f < Z.of_nat (nrows S))
    /\ StronglySorted freq_then_time (find_peaks S amp_min)
    /\ NoDup (find_peaks S amp_min)
    /\ (List.length (find_peaks S amp_min) <= nrows S * ncols S)%nat.
Proof.
  intros N S amp_min.
  pose proof (@find_peaks_in_bounds N S amp_min) as Hbounds.
  pose proof (@find_peaks_length N S amp_min) as Hlength.
  rewrite find_peaks_cells in *. cbn zeta in *.
  fold (threshold S amp_min).
  set (mask := fun f t =>
                 num_eqb (cell S f t) (maximum_filter S NEIGHBORHOOD_SIZE f t)
                 && num_gtb (cell S f t) (threshold S amp_min)).
  set (cells := flat_map
                  (fun f => map (fun t => (f, t))
                                (filter (mask f) (seq 0 (ncols S))))
                  (seq 0 (nrows S))).
  assert (Hsorted : StronglySorted freq_then_time
                      (map (fun c : nat * nat =>
                              (Z.of_nat (snd c), Z.of_nat (fst c))) cells)).
  { apply StronglySorted_map.
    apply (StronglySorted_weaken row_major);
      [|apply (cells_row_major (ncols S) mask (nrows S) 0)].
    intros x y Hxy. unfold row_major in Hxy. unfold freq_then_time.
    cbn [fst snd]. lia. }
  split; [|split; [|split; [|split]]].
  - intros fi ti. rewrite in_map_iff. split.
    + intros ([f t] & [= Et Ef] & Hc). cbn [fst snd] in *.
      apply Nat2Z.inj in Et, Ef. subst f t.
      apply np_where_cells in Hc. destruct Hc as (Hf & Ht & Hm).
      unfold mask in Hm. apply andb_true_iff in Hm. tauto.
    + intros (Hf & Ht & He & Hg). exists (fi, ti). split; [reflexivity|].
      apply np_where_cells. repeat split; try assumption.
      unfold mask. rewrite He, Hg. reflexivity.
  - exact Hbounds.
  - exact Hsorted.
  - apply strictly_sorted_NoDup, Hsorted.
  - exact Hlength.
Qed.

Lemma find_peaks_exact_witness :
  0 <= 20 < Z.of_nat (ncols Shazam.spikes)
  /\ 0 <= 0 < Z.of_nat (nrows Shazam.spikes).
Proof.
  apply (proj1 (proj2 (find_peaks_exact Z_Numeric Shazam.spikes None))).
  vm_compute. right. left. reflexivity.
Defined.

End PeaksMore.

(** ** The facade *)
Module ShazamFacts.

Import Fingerprint Database Matcher Peaks Shazam.
Import FingerprintFacts DatabaseFacts MatcherFacts PeaksFacts.

Lemma fingerprint_spec `{Frontend} (filepath : string)
  (hs : list hash_tuple) :
  fingerprint filepath = Returned hs ->
  exists a sr,
    load_audio filepath = Some (a, sr)
    /\ hs = generate_hashes (find_peaks (compute_spectrogram a sr) None) None.
Proof.
  unfold fingerprint. destruct (load_audio filepath) as [[a sr]|];
    [|discriminate].
  intros [= <-]. exists a, sr. auto.
Qed.

(** X20: the hashes [fingerprint] returns for a file are those of the
    peaks of its spectrogram, taken in ascending time with equal times
    in ascending frequency; each carries [None] as song id and an
    anchor time that is a frame index of the spectrogram; and there
    are at most 15 per cell of the spectrogram. *)
Theorem fingerprint_pipeline :
  forall (N : Numeric) (F : Frontend) (filepath : string)
         (hs : list hash_tuple),
    fingerprint filepath = Returned hs ->
    exists a sr,
      load_audio filepath = Some (a, sr)
      /\ let S := compute_spectrogram a sr in
         hs = map (tuple_of_pair None)
                  (anchor_target_pairs (sorted_by_time (find_peaks S None)))
         /\ StronglySorted time_then_freq
                           (sorted_by_time (find_peaks S None))
         /\ (forall x, In x hs ->
                       snd x = None
                       /\ 0 <= anchor_time x < Z.of_nat (ncols S))
         /\ Z.of_nat (List.length hs)
            <= FAN_OUT * Z.of_nat (nrows S * ncols S).
Proof.
  intros N F filepath hs Hf.
  destruct (fingerprint_spec filepath hs Hf) as (a & sr & Hl & ->).
  exists a, sr. split; [exact Hl|]. cbn zeta.
  set (S := compute_spectrogram a sr).
  split; [apply anchor_loop_pairs|].
  split; [apply fingerprint_peaks_time_then_freq|].
  split.
  - intros [[h t] s] Hin. unfold generate_hashes in Hin.
    rewrite anchor_loop_pairs in Hin. apply in_map_iff in Hin.
    destruct Hin as ([[t1 f1] [t2 f2]] & [= <- <- <-] & Hp).
    apply anchor_target_pairs_In in Hp. destruct Hp as (Ha & _ & _).
    apply (proj1 (sorted_by_time_In _ _)) in Ha.
    apply PeaksMore.find_peaks_in_bounds in Ha.
    split; [reflexivity|]. cbn. tauto.
  - unfold generate_hashes. rewrite anchor_loop_pairs, length_map.
    eapply Z.le_trans; [apply anchor_target_pairs_length|].
    rewrite sorted_by_time_length.
    pose proof (PeaksMore.find_peaks_length S None) as Hlen.
    unfold FAN_OUT. apply Z.mul_le_mono_nonneg_l; [lia|].
    apply Nat2Z.inj_le, Hlen.
Qed.


Lemma fingerprint_pipeline_witness :
  Z.of_nat
    (List.length (generate_hashes (@find_peaks Z_Numeric spikes None) None))
  <= FAN_OUT * Z.of_nat (1 * 120).
Proof.
  destruct (fingerprint_pipeline Z_Numeric Z_Frontend "tone.wav"
              (generate_hashes (@find_peaks Z_Numeric spikes None) None)
              eq_refl)
    as (a & sr & Hl & _ & _ & _ & Hlen).
  injection Hl as <- _. exact Hlen.
Defined.





End ShazamFacts.
